(** * Attendance session engine: geofence check, session life cycle, offline queue

    A shallow embedding of the Python services under
    [backend/app/services] ([location_service.py], [session_service.py],
    [offline_service.py]) and of the model classes they use
    ([backend/app/models]).

    Conventions of the embedding.
    - Python [float] values are rationals ([Q]); [float('inf')] is a
      separate constructor.
    - A [datetime] is the number of microseconds since the epoch ([Z]).
    - The tables reached through the SQLAlchemy session are lists of
      rows in insertion order; [commit] always succeeds and column
      constraints are not enforced.  The declarative base class
      ([app/models/base.py]) is not among the sources; its constructor
      is taken to build the row from the keyword arguments.
    - The services run on an [AsyncSession]; a relationship that no
      query has loaded raises when it is read.
    - [uuid4()] and [datetime.utcnow()] are read from a [Draws] record
      handed to each call.
    - [geopy.distance.geodesic] is a variable of the development.
    - Texts are ASCII; [uuid.UUID] and [int] are followed on such texts.
    - The Redis sorted set and list of one user live in finite maps
      indexed by the Redis key; a score is kept as the integer the code
      hands over and compared as the double Redis makes of it; key
      expiry is not modelled. *)

From Stdlib Require Import ZArith QArith Qminmax Qabs Lqa Lia List Bool Ascii.
From Stdlib Require Import Sorted Permutation.
From stdpp Require Import gmap strings.
Import ListNotations.

Local Open Scope string_scope.

(** ** Python values and control *)

Definition datetime := Z.

Inductive exn : Type :=
| ValueError (msg : string)
| RuntimeError (msg : string)
| KeyError (key : string)
| MultipleResultsFound
| ZeroDivisionError
| NotFoundError (msg : string)
| ConflictError (msg : string)
| MissingGreenlet
| ResponseError (msg : string).

Inductive outcome (A : Type) : Type :=
| Returned (a : A)
| Raised (e : exn).
Arguments Returned {A} a.
Arguments Raised {A} e.

(** [float('inf')] next to the finite floats. *)
Inductive pyfloat : Type :=
| Finite (q : Q)
| Infinity.

Definition Qltb (x y : Q) : bool := negb (Qle_bool y x).

(** Python's two-argument [min] and [max] keep the first argument
    unless the second one is strictly smaller (larger). *)
Definition py_min (a b : Q) : Q := if Qltb b a then b else a.
Definition py_max (a b : Q) : Q := if Qltb a b then b else a.

(** [Result.scalar_one_or_none()]. *)
Definition scalar_one_or_none {A : Type} (rows : list A) : outcome (option A) :=
  match rows with
  | [] => Returned None
  | [r] => Returned (Some r)
  | _ :: _ :: _ => Raised MultipleResultsFound
  end.

(** [needle in haystack] on [str]. *)
Fixpoint py_in (needle haystack : string) : bool :=
  String.prefix needle haystack ||
  match haystack with
  | EmptyString => false
  | String _ rest => py_in needle rest
  end.

Definition is_py_space (c : ascii) : bool :=
  let n := nat_of_ascii c in
  ((9 <=? n)%nat && (n <=? 13)%nat) || ((28 <=? n)%nat && (n <=? 32)%nat).

Fixpoint lstrip (s : string) : string :=
  match s with
  | EmptyString => EmptyString
  | String c rest => if is_py_space c then lstrip rest else s
  end.

Definition string_rev (s : string) : string :=
  String.string_of_list_ascii (rev (String.list_ascii_of_string s)).

(** [str.strip()]. *)
Definition py_strip (s : string) : string :=
  string_rev (lstrip (string_rev (lstrip s))).

(** [x or default] on an optional string. *)
Definition str_or (x : option string) (default : string) : string :=
  match x with
  | Some EmptyString | None => default
  | Some s => s
  end.

(** ** Model classes *)

(** [models/session.py], [class SessionStatus]. *)
Inductive SessionStatus : Type := ACTIVE | CHECKED_IN | COMPLETED | ENDED.

(** [models/session_event.py], [class EventType] and [class LocationFlag]. *)
Inductive EventType : Type := CHECK_IN | CHECK_OUT | LOCATION_UPDATE | STATUS_CHANGE.
Inductive LocationFlag : Type := GRANTED | DENIED | TIMEOUT.

(** [models/meeting.py], the columns the services read. *)
Record Meeting : Type := mkMeeting {
  meeting_id_of : string;
  meeting_name : string;
  meeting_address : string;
  meeting_lat : Q;
  meeting_lng : Q;
  radius_meters : Q;
  meeting_is_active : bool
}.

(** [models/session.py]. *)
Record Session : Type := mkSession {
  session_id_of : string;
  contact_id : string;
  meeting_id : option string;
  dest_name : string;
  dest_address : string;
  dest_lat : Q;
  dest_lng : Q;
  session_notes : option string;
  status : SessionStatus;
  is_complete : bool
}.

(** [models/session_event.py].  [location_flag] holds either a member of
    [LocationFlag] or the [bool] that [create_session_event] passes. *)
Record SessionEvent : Type := mkSessionEvent {
  event_id : string;
  event_session_id : string;
  event_type : EventType;
  ts_client : option datetime;
  ts_server : datetime;
  event_lat : option Q;
  event_lng : option Q;
  event_accuracy : option Q;
  location_flag : LocationFlag + bool;
  event_notes : option string
}.

(** The rows behind one [AsyncSession]. *)
Record DB : Type := mkDB {
  meetings : list Meeting;
  sessions : list Session;
  events : list SessionEvent
}.

(** What one call reads from [uuid4()] (twice at most) and from
    [datetime.utcnow()]. *)
Record Draws : Type := mkDraws {
  utcnow : datetime;
  uuid_a : string;
  uuid_b : string
}.

(** [services/location_service.py], the two dataclasses. *)
Record LocationData : Type := mkLocationData {
  latitude : Q;
  longitude : Q;
  accuracy : option Q
}.

Record ProximityResult : Type := mkProximityResult {
  is_within_range : bool;
  distance_meters : pyfloat;
  pr_meeting_id : option string;
  pr_meeting_name : option string;
  accuracy_confidence : Q
}.

(** [str(x)] for an optional identifier: [str(None)] is ["None"]. *)
Definition py_str (x : option string) : string :=
  match x with
  | Some s => s
  | None => "None"
  end.

Definition status_eqb (a b : SessionStatus) : bool :=
  match a, b with
  | ACTIVE, ACTIVE | CHECKED_IN, CHECKED_IN
  | COMPLETED, COMPLETED | ENDED, ENDED => true
  | _, _ => false
  end.

(** [Session.status.in_([ACTIVE, CHECKED_IN])]. *)
Definition is_live (st : SessionStatus) : bool :=
  match st with
  | ACTIVE | CHECKED_IN => true
  | COMPLETED | ENDED => false
  end.

Definition set_status (s : Session) (st : SessionStatus) : Session :=
  mkSession (session_id_of s) (contact_id s) (meeting_id s) (dest_name s)
            (dest_address s) (dest_lat s) (dest_lng s) (session_notes s)
            st (is_complete s).

Definition set_is_complete (s : Session) (b : bool) : Session :=
  mkSession (session_id_of s) (contact_id s) (meeting_id s) (dest_name s)
            (dest_address s) (dest_lat s) (dest_lng s) (session_notes s)
            (status s) b.

Definition set_session_notes (s : Session) (n : option string) : Session :=
  mkSession (session_id_of s) (contact_id s) (meeting_id s) (dest_name s)
            (dest_address s) (dest_lat s) (dest_lng s) n
            (status s) (is_complete s).

Definition set_meeting_name (m : Meeting) (n : string) : Meeting :=
  mkMeeting (meeting_id_of m) n (meeting_address m) (meeting_lat m)
            (meeting_lng m) (radius_meters m) (meeting_is_active m).

(** Writing a loaded row back on [commit]: the row with the same primary
    key is replaced. *)
Definition update_session (s : Session) (db : DB) : DB :=
  mkDB (meetings db)
       (map (fun r => if String.eqb (session_id_of r) (session_id_of s)
                      then s else r) (sessions db))
       (events db).

(** [db.add(session); commit]. *)
Definition add_session (s : Session) (db : DB) : DB :=
  mkDB (meetings db) (sessions db ++ [s]) (events db).

(** [db.add(event); commit], also reached through [Session.events.append]. *)
Definition add_event (e : SessionEvent) (db : DB) : DB :=
  mkDB (meetings db) (sessions db) (events db ++ [e]).

(** The [Session.events] relationship. *)
Definition events_of (sid : string) (db : DB) : list SessionEvent :=
  List.filter (fun e => String.eqb (event_session_id e) sid) (events db).

(** [SessionEvent.ts_client = value] on a loaded row. *)
Definition set_ts_client (target : SessionEvent) (value : datetime) (db : DB) : DB :=
  mkDB (meetings db) (sessions db)
       (map (fun e => if String.eqb (event_id e) (event_id target)
                      then mkSessionEvent (event_id e) (event_session_id e)
                             (event_type e) (Some value) (ts_server e)
                             (event_lat e) (event_lng e) (event_accuracy e)
                             (location_flag e) (event_notes e)
                      else e) (events db)).

(** Modelled from the spec: the declarative base class of
    [app/models/base.py], which is not among the sources.  The
    constructor that [SessionEvent.__init__] ends in is taken to store
    the keyword arguments that name a column and to accept the others
    ([altitude], [speed], [heading]), so that [create_session_event]
    writes its event.  Before that call [SessionEvent.__init__] has
    filled in [id] from [uuid4()], [ts_server] from [utcnow()] and, when
    it is not given, [location_flag] with [GRANTED]. *)
Definition new_session_event (fresh : string) (now : datetime) (sid : string)
    (kind : EventType) (client : option datetime) (lat lng acc : option Q)
    (flag : option bool) (notes : option string) : SessionEvent :=
  mkSessionEvent fresh sid kind client now lat lng acc
    (match flag with
     | Some b => inr b
     | None => inl GRANTED
     end) notes.

(** [event.type == "check_in"] in [models/session.py]: [EventType] derives
    from plain [enum.Enum], whose members never compare equal to a
    [str]. *)
Definition enum_eq_str (t : EventType) (label : string) : bool := false.

(** [self.events] on a [Session] that a [select] returned.  The
    relationship is declared without a loader option
    ([models/session.py], [events = relationship("SessionEvent", ...)])
    and no query of the services asks for it, so the first read loads it
    lazily; the services run on an [AsyncSession], where a lazy load
    outside a greenlet raises [sqlalchemy.exc.MissingGreenlet].  [loaded]
    stands for a row whose events an earlier read has loaded, which the
    services never have. *)
Definition Session_events (loaded : bool) (self : Session) (db : DB)
    : outcome (list SessionEvent) :=
  if loaded then Returned (events_of (session_id_of self) db)
  else Raised MissingGreenlet.

(** The setters of [Session.check_in_time] and [Session.check_out_time]
    for a value that is not [None].  [hasattr(self, 'events')] reads the
    relationship and lets every exception but [AttributeError] through.
    With the events at hand and none of them there nothing happens;
    otherwise the first event of the wanted kind gets the timestamp, and
    when there is none a bare event is appended. *)
Definition set_event_time (kind : EventType) (label : string)
    (loaded : bool) (self : Session) (value : datetime) (dr : Draws)
    (db : DB) : outcome DB :=
  match Session_events loaded self db with
  | Raised e => Raised e
  | Returned [] => Returned db
  | Returned loaded_events =>
      match List.find (fun e => enum_eq_str (event_type e) label)
              loaded_events with
      | Some e => Returned (set_ts_client e value db)
      | None =>
          Returned
            (add_event (new_session_event (uuid_b dr) (utcnow dr)
                          (session_id_of self) kind (Some value) None None
                          None None None) db)
      end
  end.

Definition check_in_time_setter := set_event_time CHECK_IN "check_in".
Definition check_out_time_setter := set_event_time CHECK_OUT "check_out".

(** The row of a session as a [select] of the services returns it: its
    events are not loaded. *)
Definition from_select : bool := false.

Definition newline : string := String (ascii_of_nat 10) EmptyString.

Section Engine.

(** [geodesic(a, b).meters] of geopy; it raises on a point it rejects. *)
Variable geodesic : Q * Q -> Q * Q -> outcome Q.

(** ** [services/location_service.py] *)

Definition default_radius_meters : Q := 100.
Definition max_radius_meters : Q := 1000.
Definition min_accuracy_meters : Q := 1000.

Definition _calculate_accuracy_confidence
    (distance radius : Q) (gps_accuracy : option Q) : outcome Q :=
  if Qeq_bool radius 0 then Raised ZeroDivisionError
  else
    let distance_ratio := py_min (distance / radius) 1%Q in
    let base_confidence := (1 - distance_ratio)%Q in
    let base_confidence :=
      match gps_accuracy with
      | Some a => (base_confidence * py_max 0 (1 - a / min_accuracy_meters))%Q
      | None => base_confidence
      end in
    Returned (py_max 0%Q (py_min 1%Q base_confidence)).

(** The answer of [verify_location] when the meeting is missing or
    anything raised. *)
Definition fail_closed : ProximityResult :=
  mkProximityResult false Infinity None None 0.

(** [meeting.radius_meters or self.default_radius_meters], then the
    branch on [max_radius_meters]. *)
Definition effective_radius (meeting : Meeting) : Q :=
  let radius := if Qeq_bool (radius_meters meeting) 0
                then default_radius_meters else radius_meters meeting in
  if Qltb max_radius_meters radius then radius
  else py_min radius max_radius_meters.

Definition verify_location (user_lat user_lng : Q) (mid : string) (db : DB)
    (required_accuracy : option Q) : ProximityResult :=
  match scalar_one_or_none
          (List.filter (fun m => String.eqb (meeting_id_of m) mid) (meetings db)) with
  | Raised _ => fail_closed
  | Returned None => fail_closed
  | Returned (Some meeting) =>
      match geodesic (meeting_lat meeting, meeting_lng meeting)
                     (user_lat, user_lng) with
      | Raised _ => fail_closed
      | Returned distance =>
          let radius := effective_radius meeting in
          match _calculate_accuracy_confidence distance radius
                  required_accuracy with
          | Raised _ => fail_closed
          | Returned confidence =>
              mkProximityResult (Qle_bool distance radius) (Finite distance)
                (Some (meeting_id_of meeting)) (Some (meeting_name meeting))
                confidence
          end
      end
  end.

(** [if meeting_id and event_type in [CHECK_IN, CHECK_OUT]]. *)
Definition needs_verification (mid : option string) (kind : EventType) : bool :=
  match mid, kind with
  | Some EmptyString, _ | None, _ => false
  | Some _, (CHECK_IN | CHECK_OUT) => true
  | Some _, _ => false
  end.

Definition create_session_event (sid : string) (kind : EventType)
    (location_data : LocationData) (mid : option string)
    (notes : option string) (dr : Draws) (db : DB)
    : option SessionEvent * DB :=
  if needs_verification mid kind &&
     negb (is_within_range
             (verify_location (latitude location_data)
                (longitude location_data) (py_str mid) db
                (accuracy location_data)))
  then (None, db)
  else
    let session_event :=
      new_session_event (uuid_a dr) (utcnow dr) sid kind None
        (Some (latitude location_data)) (Some (longitude location_data))
        (accuracy location_data) (Some true) notes in
    (Some session_event, add_event session_event db).

(** ** [services/session_service.py] *)

Definition get_active_session (cid : string) (db : DB) : option Session :=
  match scalar_one_or_none
          (List.filter (fun s => String.eqb (contact_id s) cid && is_live (status s))
                  (sessions db)) with
  | Returned found => found
  | Raised _ => None
  end.

Definition create_session (cid mid : string) (notes : option string)
    (dr : Draws) (db : DB) : outcome Session * DB :=
  match scalar_one_or_none
          (List.filter (fun m => String.eqb (meeting_id_of m) mid
                            && meeting_is_active m) (meetings db)) with
  | Raised _ => (Raised (RuntimeError "Failed to create session"), db)
  | Returned None =>
      match scalar_one_or_none
              (List.filter (fun m => String.eqb (meeting_id_of m) mid)
                      (meetings db)) with
      | Raised _ => (Raised (RuntimeError "Failed to create session"), db)
      | Returned (Some _) =>
          (Raised (ValueError ("Meeting " ++ mid ++ " is not active")), db)
      | Returned None =>
          (Raised (ValueError ("Meeting " ++ mid ++ " not found")), db)
      end
  | Returned (Some meeting) =>
      let db1 :=
        match get_active_session cid db with
        | Some existing_session =>
            update_session
              (set_is_complete (set_status existing_session ENDED) true) db
        | None => db
        end in
      let session :=
        mkSession (uuid_a dr) cid (Some mid) (meeting_name meeting)
          (meeting_address meeting) (meeting_lat meeting)
          (meeting_lng meeting) notes ACTIVE false in
      (Returned session, add_session session db1)
  end.

Definition create_general_session (cid : string) (notes : option string)
    (dr : Draws) (db : DB) : outcome Session * DB :=
  match get_active_session cid db with
  | Some existing_session => (Returned existing_session, db)
  | None =>
      let session :=
        mkSession (uuid_a dr) cid None "General Session" "N/A" 0 0
          (Some (str_or notes "General session created on login"))
          ACTIVE false in
      (Returned session, add_session session db)
  end.

(** [is_test_meeting] in [check_in]. *)
Definition is_test_meeting (meeting : Meeting) : bool :=
  py_in "AYA Demo" (meeting_name meeting)
  || Qle_bool 5000 (radius_meters meeting).

(** [SessionService.check_in].  [create_session_event] commits its
    event; the status set afterwards is still uncommitted when the setter
    of [check_in_time] runs, so when the setter raises, the [except]
    branch rolls the status back and returns [None]. *)
Definition check_in (sid : string) (location_data : LocationData)
    (notes : option string) (dr : Draws) (db : DB)
    : option SessionEvent * DB :=
  match scalar_one_or_none
          (List.filter (fun s => String.eqb (session_id_of s) sid) (sessions db)) with
  | Raised _ => (None, db)
  | Returned None => (None, db)
  | Returned (Some session) =>
      if negb (status_eqb (status session) ACTIVE) then (None, db)
      else
        match scalar_one_or_none
                (List.filter (fun m => String.eqb (meeting_id_of m)
                                    (py_str (meeting_id session)))
                        (meetings db)) with
        | Raised _ => (None, db)
        | Returned None => (None, db)
        | Returned (Some meeting) =>
            let proximity_result :=
              verify_location (latitude location_data)
                (longitude location_data) (py_str (meeting_id session)) db
                (accuracy location_data) in
            if negb (is_within_range proximity_result)
               && negb (is_test_meeting meeting)
            then (None, db)
            else
              match create_session_event sid CHECK_IN location_data
                      (Some (py_str (meeting_id session))) notes dr db with
              | (Some event, db1) =>
                  let session := set_status session CHECKED_IN in
                  match check_in_time_setter from_select session (utcnow dr)
                          dr db1 with
                  | Returned db2 => (Some event, update_session session db2)
                  | Raised _ => (None, db1)
                  end
              | (None, db1) => (None, db1)
              end
        end
  end.

(** [SessionService.check_out], with the same end. *)
Definition check_out (sid : string) (location_data : LocationData)
    (notes : option string) (dr : Draws) (db : DB)
    : option SessionEvent * DB :=
  match scalar_one_or_none
          (List.filter (fun s => String.eqb (session_id_of s) sid) (sessions db)) with
  | Raised _ => (None, db)
  | Returned None => (None, db)
  | Returned (Some session) =>
      if negb (status_eqb (status session) CHECKED_IN) then (None, db)
      else
        let proximity_result :=
          verify_location (latitude location_data)
            (longitude location_data) (py_str (meeting_id session)) db
            (accuracy location_data) in
        if negb (is_within_range proximity_result) then (None, db)
        else
          match create_session_event sid CHECK_OUT location_data
                  (Some (py_str (meeting_id session))) notes dr db with
          | (Some event, db1) =>
              let session := set_status session COMPLETED in
              match check_out_time_setter from_select session (utcnow dr)
                      dr db1 with
              | Returned db2 => (Some event, update_session session db2)
              | Raised _ => (None, db1)
              end
          | (None, db1) => (None, db1)
          end
  end.

(** [SessionService.end_session]: nothing is committed before the setter
    of [check_out_time] runs, so when it raises the [except] branch
    returns [False] with the database as it was. *)
Definition end_session (sid : string) (reason : string) (dr : Draws) (db : DB)
    : bool * DB :=
  match scalar_one_or_none
          (List.filter (fun s => String.eqb (session_id_of s) sid) (sessions db)) with
  | Raised _ => (false, db)
  | Returned None => (false, db)
  | Returned (Some session) =>
      let session := set_status session ENDED in
      match check_out_time_setter from_select session (utcnow dr) dr db with
      | Returned db1 =>
          let session :=
            set_session_notes session
              (Some (py_strip (str_or (session_notes session) EmptyString
                               ++ newline ++ "Ended: " ++ reason))) in
          (true, update_session session db1)
      | Raised _ => (false, db)
      end
  end.

End Engine.

(** ** [services/offline_service.py] *)

(** The keys the four handlers read from [operation.data]; [None] is a
    missing key. *)
Record OperationData : Type := mkOperationData {
  data_session_id : option string;
  data_contact_id : option string;
  data_meeting_id : option string;
  data_latitude : option Q;
  data_longitude : option Q;
  data_accuracy : option Q;
  data_notes : option string;
  data_reason : option string
}.

(** [class OfflineOperation]. *)
Record OfflineOperation : Type := mkOfflineOperation {
  op_id : string;
  operation_type : string;
  data : OperationData;
  user_id : string;
  priority : Z;
  max_retries : Z;
  retry_count : Z;
  created_at : datetime;
  last_attempt : option datetime;
  op_status : string
}.

#[local] Instance Q_eq_dec : EqDecision Q.
Proof. solve_decision. Defined.
#[local] Instance OperationData_eq_dec : EqDecision OperationData.
Proof. solve_decision. Defined.
#[local] Instance OfflineOperation_eq_dec : EqDecision OfflineOperation.
Proof. solve_decision. Defined.

(** A sorted-set member is the JSON text of [to_dict()], which
    determines every field, [user_id] as the text [str(self.user_id)];
    the member is kept as the record of these fields.  Each member
    carries the score it was added with. *)
Definition zset := list (OfflineOperation * Z).

Record Redis : Type := mkRedis {
  zsets : gmap string zset;
  lists : gmap string (list OfflineOperation)
}.

Definition queue_key (uid : string) : string := "offline_queue" ++ ":" ++ uid.
Definition failed_key (uid : string) : string := "offline_failed" ++ ":" ++ uid.

Definition zset_of (key : string) (r : Redis) : zset :=
  default [] (zsets r !! key).
Definition list_of (key : string) (r : Redis) : list OfflineOperation :=
  default [] (lists r !! key).

(** Redis drops a key whose collection became empty. *)
Definition store {A : Type} (key : string) (l : list A)
    (m : gmap string (list A)) : gmap string (list A) :=
  match l with
  | [] => delete key m
  | _ :: _ => <[key := l]> m
  end.

(** The double that Redis makes of an integer score: the score itself
    below [2 ^ 53], else the nearest number with 53 significant bits,
    the even one of two that are equally near. *)
Definition redis_double (z : Z) : Z :=
  let a := Z.abs z in
  if (a <? 2 ^ 53)%Z then z
  else
    let e := (Z.log2 a - 52)%Z in
    let q := Z.shiftr a e in
    let low := (a - Z.shiftl q e)%Z in
    let half := Z.shiftl 1 (e - 1) in
    let q :=
      if (half <? low)%Z || ((low =? half)%Z && Z.odd q)
      then (q + 1)%Z else q in
    (Z.sgn z * Z.shiftl q e)%Z.

(** Redis refuses a score that is beyond the doubles. *)
Definition double_finite (z : Z) : bool :=
  (Z.abs (redis_double z) <? 2 ^ 1024)%Z.

(** [ZADD key member score]: a present member only gets the new score. *)
Fixpoint zadd_entries (member : OfflineOperation) (score : Z) (l : zset) : zset :=
  match l with
  | [] => [(member, score)]
  | (m, s) :: rest =>
      if decide (m = member) then (m, score) :: rest
      else (m, s) :: zadd_entries member score rest
  end.

Definition zadd (key : string) (member : OfflineOperation) (score : Z)
    (r : Redis) : Redis :=
  mkRedis (store key (zadd_entries member score (zset_of key r)) (zsets r))
          (lists r).

(** [ZADD] as the client sees it: the reply to a score that is no
    double is an error, which redis-py raises as [ResponseError]. *)
Definition zadd_reply (key : string) (member : OfflineOperation) (score : Z)
    (r : Redis) : outcome Redis :=
  if double_finite score then Returned (zadd key member score r)
  else Raised (ResponseError "value is not a valid float").

(** [ZREMRANGEBYSCORE key -inf +inf]. *)
Definition zremrangebyscore_all (key : string) (r : Redis) : Redis :=
  mkRedis (delete key (zsets r)) (lists r).

(** [LPUSH key member]. *)
Definition lpush (key : string) (member : OfflineOperation) (r : Redis) : Redis :=
  mkRedis (zsets r) (store key (member :: list_of key r) (lists r)).

Fixpoint remove_first (member : OfflineOperation) (l : list OfflineOperation)
    : list OfflineOperation :=
  match l with
  | [] => []
  | x :: rest => if decide (x = member) then rest
                 else x :: remove_first member rest
  end.

(** [LREM key 1 member]. *)
Definition lrem_one (key : string) (member : OfflineOperation) (r : Redis) : Redis :=
  mkRedis (zsets r) (store key (remove_first member (list_of key r)) (lists r)).

(** [DELETE key]. *)
Definition redis_delete (key : string) (r : Redis) : Redis :=
  mkRedis (delete key (zsets r)) (delete key (lists r)).

(** Index ranges of [LRANGE] and [ZREVRANGE]: both ends inclusive, a
    negative index counts from the end. *)
Definition redis_range {A : Type} (l : list A) (start stop : Z) : list A :=
  let n := Z.of_nat (length l) in
  let start := if (start <? 0)%Z then (n + start)%Z else start in
  let stop := if (stop <? 0)%Z then (n + stop)%Z else stop in
  let start := if (start <? 0)%Z then 0%Z else start in
  if (stop <? start)%Z || (n <=? start)%Z then []
  else
    let stop := if (n <=? stop)%Z then (n - 1)%Z else stop in
    firstn (Z.to_nat (stop - start + 1)) (skipn (Z.to_nat start) l).

(** [int(operation.created_at.timestamp())]. *)
Definition epoch_seconds (t : datetime) : Z := Z.quot t 1000000.

(** [operation.priority * 1000000 - int(operation.created_at.timestamp())]. *)
Definition score (operation : OfflineOperation) : Z :=
  (priority operation * 1000000 - epoch_seconds (created_at operation))%Z.

(** [str.replace(old, "")] for a non-empty [old]: the occurrences are
    taken from the left and do not overlap; [skip] counts the characters
    of an occurrence that are still to be dropped. *)
Fixpoint remove_all (old : string) (skip : nat) (s : string) : string :=
  match s with
  | EmptyString => EmptyString
  | String c rest =>
      match skip with
      | S k => remove_all old k rest
      | O =>
          if String.prefix old s
          then remove_all old (String.length old - 1) rest
          else String c (remove_all old 0 rest)
      end
  end.

(** [str.strip(chars)]. *)
Fixpoint lstrip_of (p : ascii -> bool) (s : string) : string :=
  match s with
  | EmptyString => EmptyString
  | String c rest => if p c then lstrip_of p rest else s
  end.

Fixpoint rstrip_of (p : ascii -> bool) (s : string) : string :=
  match s with
  | EmptyString => EmptyString
  | String c rest =>
      match rstrip_of p rest with
      | EmptyString => if p c then EmptyString else String c EmptyString
      | kept => String c kept
      end
  end.

Definition strip_of (p : ascii -> bool) (s : string) : string :=
  rstrip_of p (lstrip_of p s).

Definition is_brace (c : ascii) : bool :=
  Ascii.eqb c "{"%char || Ascii.eqb c "}"%char.

(** The white space [int] skips around the number in a text of ASCII
    characters: tab, line feed, vertical tab, form feed, carriage return
    and space. *)
Definition is_c_space (c : ascii) : bool :=
  let n := nat_of_ascii c in
  ((9 <=? n)%nat && (n <=? 13)%nat) || (n =? 32)%nat.

(** The value of a hexadecimal digit, as the lower-case digit. *)
Definition hex_digit (c : ascii) : option ascii :=
  let n := nat_of_ascii c in
  if ((48 <=? n)%nat && (n <=? 57)%nat) || ((97 <=? n)%nat && (n <=? 102)%nat)
  then Some c
  else if (65 <=? n)%nat && (n <=? 70)%nat then Some (ascii_of_nat (n + 32))
  else None.

(** The digits [int] reads from the front of a text, single underscores
    between them left out, and the rest of the text; [None] when two
    underscores meet or the digits end in one.  [prev] says that the
    character before was an underscore. *)
Fixpoint scan_digits (prev : bool) (s : string)
    : option (list ascii * string) :=
  match s with
  | EmptyString => if prev then None else Some ([], EmptyString)
  | String c rest =>
      if Ascii.eqb c "_"%char
      then if prev then None else scan_digits true rest
      else
        match hex_digit c with
        | Some d =>
            match scan_digits false rest with
            | Some (ds, tail) => Some (d :: ds, tail)
            | None => None
            end
        | None => if prev then None else Some ([], s)
        end
  end.

(** The digits of [int(text, 16)] for a text of ASCII characters without
    a minus sign ([UUID] has removed the hyphens before): white space
    around the number, a plus sign, the prefix [0x] or [0X] with one
    underscore after it, then at least one digit.  [None] stands for the
    [ValueError]. *)
Definition int16_digits (text : string) : option (list ascii) :=
  let s := lstrip_of is_c_space text in
  let s :=
    match s with
    | String c rest => if Ascii.eqb c "+"%char then rest else s
    | EmptyString => s
    end in
  let s :=
    match s with
    | String c (String x rest) =>
        if Ascii.eqb c "0"%char
           && (Ascii.eqb x "x"%char || Ascii.eqb x "X"%char)
        then match rest with
             | String u rest' => if Ascii.eqb u "_"%char then rest' else rest
             | EmptyString => rest
             end
        else s
    | _ => s
    end in
  match s with
  | EmptyString => None
  | String c _ =>
      if Ascii.eqb c "_"%char then None
      else
        match scan_digits false s with
        | Some (d :: ds, tail) =>
            match lstrip_of is_c_space tail with
            | EmptyString => Some (d :: ds)
            | String _ _ => None
            end
        | Some ([], _) | None => None
        end
  end.

Definition take_string (n : nat) (l : list ascii) : string :=
  String.string_of_list_ascii (firstn n l).

(** [UUID.__str__] on the 32 digits of ['%032x' % self.int]: the groups
    [hex[:8]], [hex[8:12]], [hex[12:16]], [hex[16:20]] and [hex[20:]]. *)
Definition uuid_str (digits : list ascii) : string :=
  take_string 8 digits ++ "-" ++
  take_string 4 (skipn 8 digits) ++ "-" ++
  take_string 4 (skipn 12 digits) ++ "-" ++
  take_string 4 (skipn 16 digits) ++ "-" ++
  String.string_of_list_ascii (skipn 20 digits).

(** [str(UUID(text))] for a text of ASCII characters, following
    [uuid.UUID.__init__]: [urn:] and [uuid:] are taken out, braces
    stripped from both ends, hyphens taken out; the rest has to be 32
    characters long and is read by [int(hex, 16)]; the number is written
    with 32 lower-case digits.  [None] stands for the [ValueError]. *)
Definition parse_uuid (text : string) : option string :=
  let hex := remove_all "uuid:" 0 (remove_all "urn:" 0 text) in
  let hex := remove_all "-" 0 (strip_of is_brace hex) in
  if (String.length hex =? 32)%nat
  then
    match int16_digits hex with
    | Some ds => Some (uuid_str (repeat "0"%char (32 - length ds) ++ ds))
    | None => None
    end
  else None.

Definition set_attempt (o : OfflineOperation) (st : string)
    (attempt : option datetime) : OfflineOperation :=
  mkOfflineOperation (op_id o) (operation_type o) (data o) (user_id o)
    (priority o) (max_retries o) (retry_count o) (created_at o) attempt st.

Definition set_op_status (o : OfflineOperation) (st : string) : OfflineOperation :=
  set_attempt o st (last_attempt o).

Definition set_retry_count (o : OfflineOperation) (n : Z) : OfflineOperation :=
  mkOfflineOperation (op_id o) (operation_type o) (data o) (user_id o)
    (priority o) (max_retries o) n (created_at o) (last_attempt o)
    (op_status o).

Definition set_user_id (o : OfflineOperation) (uid : string) : OfflineOperation :=
  mkOfflineOperation (op_id o) (operation_type o) (data o) uid
    (priority o) (max_retries o) (retry_count o) (created_at o)
    (last_attempt o) (op_status o).

(** [OfflineOperation.from_dict] on the dictionary of a member.  The
    fields come back as [to_dict] wrote them, but for [user_id], which is
    [UUID(data["user_id"])]: the call raises on a text that is no UUID
    ([None] here), and the operation carries the UUID, of which every
    later [str()] and f-string gives the canonical text. *)
Definition from_dict (member : OfflineOperation) : option OfflineOperation :=
  match parse_uuid (user_id member) with
  | Some canonical => Some (set_user_id member canonical)
  | None => None
  end.

(** The loop of [get_pending_operations] and [get_failed_operations]: a
    member that [from_dict] raises on is skipped. *)
Fixpoint parse_operations (members : list OfflineOperation)
    : list OfflineOperation :=
  match members with
  | [] => []
  | member :: rest =>
      match from_dict member with
      | Some operation => operation :: parse_operations rest
      | None => parse_operations rest
      end
  end.

(** [OfflineService.queue_operation]; [OfflineOperation.__init__] fixes
    [max_retries = 3], [retry_count = 0], [status = "pending"].  The
    method logs an exception and raises it again. *)
Definition queue_operation (kind : string) (payload : OperationData)
    (uid : string) (prio : Z) (dr : Draws) (r : Redis)
    : outcome string * Redis :=
  let operation :=
    mkOfflineOperation (uuid_a dr) kind payload uid prio 3 0 (utcnow dr)
      None "pending" in
  match zadd_reply (queue_key uid) operation (score operation) r with
  | Returned r' => (Returned (op_id operation), r')
  | Raised e => (Raised e, r)
  end.

Definition _remove_operation (operation : OfflineOperation) (r : Redis) : Redis :=
  zremrangebyscore_all (queue_key (user_id operation)) r.

Definition _move_to_failed (operation : OfflineOperation) (r : Redis) : Redis :=
  lpush (failed_key (user_id operation)) operation r.

(** [_update_operation] logs an exception and goes on. *)
Definition _update_operation (operation : OfflineOperation) (r : Redis) : Redis :=
  match zadd_reply (queue_key (user_id operation)) operation
          (score operation) r with
  | Returned r' => r'
  | Raised _ => r
  end.

Definition get_failed_operations (uid : string) (limit : Z) (r : Redis)
    : list OfflineOperation :=
  parse_operations (redis_range (list_of (failed_key uid) r) 0 (limit - 1)).

(** [retry_failed_operation]: the member is taken off the failed list
    before [from_dict] and [ZADD] run; when one of them raises, the
    method returns [False] and the member is gone. *)
Definition retry_failed_operation (operation_id : string) (uid : string)
    (r : Redis) : bool * Redis :=
  match List.find (fun o => String.eqb (op_id o) operation_id)
             (redis_range (list_of (failed_key uid) r) 0 (-1)) with
  | Some found =>
      let r1 := lrem_one (failed_key uid) found r in
      match from_dict (set_op_status (set_retry_count found 0) "pending") with
      | Some operation =>
          match zadd_reply (queue_key uid) operation (score operation) r1 with
          | Returned r2 => (true, r2)
          | Raised _ => (false, r1)
          end
      | None => (false, r1)
      end
  | None => (false, r)
  end.

Definition clear_user_queue (uid : string) (r : Redis) : bool * Redis :=
  (true, mkRedis (delete (queue_key uid) (zsets r))
                 (delete (failed_key uid) (lists r))).

Section Queue.

Variable geodesic : Q * Q -> Q * Q -> outcome Q.

(** The byte order of two members' JSON texts, which Redis uses between
    members of equal score. *)
Variable json_ltb : OfflineOperation -> OfflineOperation -> bool.

(** [ZREVRANGE] order: greater score first, the scores being doubles,
    then greater member. *)
Definition zrev_before (a b : OfflineOperation * Z) : bool :=
  (redis_double (snd b) <? redis_double (snd a))%Z
  || ((redis_double (snd a) =? redis_double (snd b))%Z
      && json_ltb (fst b) (fst a)).

Fixpoint zrev_insert (x : OfflineOperation * Z) (l : zset) : zset :=
  match l with
  | [] => [x]
  | y :: rest => if zrev_before x y then x :: l else y :: zrev_insert x rest
  end.

Definition zrev_sort (l : zset) : zset := fold_right zrev_insert [] l.

(** [ZREVRANGE key start stop WITHSCORES]. *)
Definition zrevrange (key : string) (start stop : Z) (r : Redis) : zset :=
  redis_range (zrev_sort (zset_of key r)) start stop.

Definition get_pending_operations (uid : string) (limit : Z) (r : Redis)
    : list OfflineOperation :=
  parse_operations (map fst (zrevrange (queue_key uid) 0 (limit - 1) r)).

Definition location_of (d : OperationData) : option LocationData :=
  match data_latitude d, data_longitude d with
  | Some lat, Some lng => Some (mkLocationData lat lng (data_accuracy d))
  | _, _ => None
  end.

Definition _process_check_in (operation : OfflineOperation) (dr : Draws)
    (db : DB) : bool * DB :=
  match location_of (data operation),
        data_session_id (data operation) ≫= parse_uuid with
  | Some location_data, Some sid =>
      let '(event, db1) :=
        check_in geodesic sid location_data (data_notes (data operation)) dr db in
      (bool_decide (event <> None), db1)
  | _, _ => (false, db)
  end.

Definition _process_check_out (operation : OfflineOperation) (dr : Draws)
    (db : DB) : bool * DB :=
  match location_of (data operation),
        data_session_id (data operation) ≫= parse_uuid with
  | Some location_data, Some sid =>
      let '(event, db1) :=
        check_out geodesic sid location_data (data_notes (data operation)) dr db in
      (bool_decide (event <> None), db1)
  | _, _ => (false, db)
  end.

Definition _process_create_session (operation : OfflineOperation) (dr : Draws)
    (db : DB) : bool * DB :=
  match data_contact_id (data operation) ≫= parse_uuid,
        data_meeting_id (data operation) ≫= parse_uuid with
  | Some cid, Some mid =>
      match create_session cid mid (data_notes (data operation)) dr db with
      | (Returned _, db1) => (true, db1)
      | (Raised _, db1) => (false, db1)
      end
  | _, _ => (false, db)
  end.

Definition _process_end_session (operation : OfflineOperation) (dr : Draws)
    (db : DB) : bool * DB :=
  match data_session_id (data operation) ≫= parse_uuid with
  | Some sid =>
      end_session sid
        (default "Offline end" (data_reason (data operation))) dr db
  | None => (false, db)
  end.

(** The handler [process_operation] selects, [None] for an unknown
    [operation_type]. *)
Definition dispatch (operation : OfflineOperation)
    : option (OfflineOperation -> Draws -> DB -> bool * DB) :=
  if String.eqb (operation_type operation) "check_in"
  then Some _process_check_in
  else if String.eqb (operation_type operation) "check_out"
  then Some _process_check_out
  else if String.eqb (operation_type operation) "create_session"
  then Some _process_create_session
  else if String.eqb (operation_type operation) "end_session"
  then Some _process_end_session
  else None.

(** What [process_operation] leaves behind: its return value, the
    operation object as mutated, the database and Redis. *)
Record Processed : Type := mkProcessed {
  success : bool;
  operation_after : OfflineOperation;
  db_after : DB;
  redis_after : Redis
}.

(** [OfflineService.process_operation].  The handlers and the three
    Redis helpers catch every exception themselves, so the [except]
    branch of the method is not reached and is left out. *)
Definition process_operation (operation : OfflineOperation) (dr : Draws)
    (db : DB) (r : Redis) : Processed :=
  let operation := set_attempt operation "processing" (Some (utcnow dr)) in
  match dispatch operation with
  | None => mkProcessed false operation db r
  | Some handler =>
      let '(ok, db1) := handler operation dr db in
      if ok then
        let operation := set_op_status operation "completed" in
        mkProcessed true operation db1 (_remove_operation operation r)
      else
        let operation :=
          set_retry_count operation (retry_count operation + 1) in
        if (max_retries operation <=? retry_count operation)%Z then
          let operation := set_op_status operation "failed" in
          mkProcessed false operation db1 (_move_to_failed operation r)
        else
          let operation := set_op_status operation "pending" in
          mkProcessed false operation db1 (_update_operation operation r)
  end.

(** The counters [process_user_queue] returns, with the stores. *)
Record QueueRun : Type := mkQueueRun {
  processed : Z;
  failed : Z;
  total : Z;
  run_db : DB;
  run_redis : Redis
}.

(** The loop of [process_user_queue]; the [n]-th operation of the batch
    reads its clock and identifiers from [draws n]. *)
Fixpoint process_all (operations : list OfflineOperation) (n : nat)
    (draws : nat -> Draws) (acc : QueueRun) : QueueRun :=
  match operations with
  | [] => acc
  | operation :: rest =>
      let p := process_operation operation (draws n) (run_db acc)
                 (run_redis acc) in
      process_all rest (S n) draws
        (if success p
         then mkQueueRun (processed acc + 1) (failed acc) (total acc)
                (db_after p) (redis_after p)
         else mkQueueRun (processed acc) (failed acc + 1) (total acc)
                (db_after p) (redis_after p))
  end.

Definition process_user_queue (uid : string) (max_operations : Z)
    (draws : nat -> Draws) (db : DB) (r : Redis) : QueueRun :=
  let operations := get_pending_operations uid max_operations r in
  process_all operations 0 draws
    (mkQueueRun 0 0 (Z.of_nat (length operations)) db r).

End Queue.

(** ** Vocabulary of the properties *)





(** The sessions of a participant that are [ACTIVE] or [CHECKED_IN]. *)
Definition live_for (cid : string) (s : Session) : bool :=
  String.eqb (contact_id s) cid && is_live (status s).

Definition live_sessions (cid : string) (db : DB) : list Session :=
  List.filter (live_for cid) (sessions db).

Definition one_live_session (db : DB) : Prop :=
  forall cid, (length (live_sessions cid db) <= 1)%nat.

(** The rows a query by primary key returns. *)
Definition sessions_with_id (sid : string) (db : DB) : list Session :=
  List.filter (fun s => String.eqb (session_id_of s) sid) (sessions db).

Definition meetings_with_id (mid : string) (db : DB) : list Meeting :=
  List.filter (fun m => String.eqb (meeting_id_of m) mid) (meetings db).

(** What a caller of [check_in] observes: the method catches every
    exception and returns [None] instead. *)
Definition check_in_outcome (geodesic : Q * Q -> Q * Q -> outcome Q)
    (sid : string) (location_data : LocationData) (notes : option string)
    (dr : Draws) (db : DB) : outcome (option SessionEvent) * DB :=
  let '(event, db1) := check_in geodesic sid location_data notes dr db in
  (Returned event, db1).

(** One call of a core operation. *)
Inductive core_step (geodesic : Q * Q -> Q * Q -> outcome Q) : DB -> DB -> Prop :=
| step_create_session cid mid notes dr db :
    core_step geodesic db (snd (create_session cid mid notes dr db))
| step_create_general_session cid notes dr db :
    core_step geodesic db (snd (create_general_session cid notes dr db))
| step_check_in sid location_data notes dr db :
    core_step geodesic db (snd (check_in geodesic sid location_data notes dr db))
| step_check_out sid location_data notes dr db :
    core_step geodesic db (snd (check_out geodesic sid location_data notes dr db))
| step_end_session sid reason dr db :
    core_step geodesic db (snd (end_session sid reason dr db)).

(** The states the core operations produce from a database that holds
    meetings only. *)
Inductive reachable (geodesic : Q * Q -> Q * Q -> outcome Q) : DB -> Prop :=
| reachable_initial ms : reachable geodesic (mkDB ms [] [])
| reachable_step db db' :
    reachable geodesic db -> core_step geodesic db db' ->
    reachable geodesic db'.

(** The session [create_session] ends before it adds the new one. *)
Definition ended (s : Session) : Session :=
  set_is_complete (set_status s ENDED) true.


(** The order in which [ZREVRANGE] may list two members: the one listed
    first does not have the smaller score, the scores taken as the
    doubles Redis compares. *)
Definition by_score (a b : OfflineOperation * Z) : Prop :=
  (redis_double (snd b) <= redis_double (snd a))%Z.

(** The byte order of two JSON texts whose identifiers differ: [to_dict]
    puts ["id"] first. *)
Definition id_ltb (a b : OfflineOperation) : bool :=
  String.ltb (op_id a) (op_id b).

(** ** Sample data *)

(** A distance for the sample data: 111195 metres per degree along the
    grid. *)
Definition flat_geodesic (a b : Q * Q) : outcome Q :=
  Returned (111195 * (Qabs (fst a - fst b) + Qabs (snd a - snd b)))%Q.

Definition hall : Meeting :=
  mkMeeting "0a000000-0000-4000-8000-000000000001" "Weekly Group"
    "12 Main St" (407128 # 10000) (-740060 # 10000) 100 true.

Definition alice : string := "c0000000-0000-4000-8000-00000000000a".

Definition draws1 : Draws :=
  mkDraws 1700000000000000%Z "50000000-0000-4000-8000-000000000001"
    "e0000000-0000-4000-8000-000000000001".
Definition draws2 : Draws :=
  mkDraws 1700000100000000%Z "50000000-0000-4000-8000-000000000002"
    "e0000000-0000-4000-8000-000000000002".
Definition draws3 : Draws :=
  mkDraws 1700000200000000%Z "50000000-0000-4000-8000-000000000003"
    "e0000000-0000-4000-8000-000000000003".
Definition draws4 : Draws :=
  mkDraws 1700000300000000%Z "50000000-0000-4000-8000-000000000004"
    "e0000000-0000-4000-8000-000000000004".
Definition draws5 : Draws :=
  mkDraws 1700000400000000%Z "50000000-0000-4000-8000-000000000005"
    "e0000000-0000-4000-8000-000000000005".

(** The hall and nothing else. *)
Definition db_empty : DB := mkDB [hall] [] [].

(** Alice started a session at the hall. *)
Definition db_started : DB :=
  snd (create_session alice (meeting_id_of hall) None draws1 db_empty).

Definition at_hall : LocationData :=
  mkLocationData (407128 # 10000) (-740060 # 10000) (Some 0%Q).

(** Alice's session at the hall, once started and once checked in. *)
Definition started_session : Session :=
  mkSession (uuid_a draws1) alice (Some (meeting_id_of hall)) "Weekly Group"
    "12 Main St" (407128 # 10000) (-740060 # 10000) None ACTIVE false.
Definition checked_in_session : Session :=
  set_status started_session CHECKED_IN.

(** A check-in event as [generate_test_data.py] writes it beside a
    session it seeds as [CHECKED_IN]. *)
Definition seeded_check_in : SessionEvent :=
  mkSessionEvent (uuid_a draws2) (uuid_a draws1) CHECK_IN
    (Some (utcnow draws2)) (utcnow draws2 + 2000000)%Z
    (Some (407128 # 10000)) (Some (-740060 # 10000)) (Some 10%Q)
    (inl GRANTED) (Some "Checked in at meeting location").

(** Alice's session seeded as checked in at the hall. *)
Definition db_checked_in : DB :=
  mkDB [hall] [checked_in_session] [seeded_check_in].

(** Alice starts a second session at the hall while checked in. *)
Definition db_restarted : DB :=
  snd (create_session alice (meeting_id_of hall) None draws3 db_checked_in).

Definition redis_empty : Redis := mkRedis ∅ ∅.

(** The check-in at the hall that Alice's client recorded while offline. *)
Definition check_in_payload : OperationData :=
  mkOperationData (Some (uuid_a draws1)) None None
    (Some (407128 # 10000)) (Some (-740060 # 10000)) (Some 0%Q) None None.

Definition queued_check_in : OfflineOperation :=
  mkOfflineOperation (uuid_a draws3) "check_in" check_in_payload alice 1 3 0
    (utcnow draws3) None "pending".

Definition redis_check_in : Redis :=
  snd (queue_operation "check_in" check_in_payload alice 1 draws3 redis_empty).


(** Three operations of Alice: one of priority 1, one of priority 1
    queued 500000 seconds later, and one of priority 2 queued 1000001
    seconds after the first.  Every [queue_operation] renews the seven
    days (604800 seconds) the key has to live, so the key is alive
    throughout. *)
Definition early_draws : Draws :=
  mkDraws 1700000000000000%Z "07000000-0000-4000-8000-000000000001"
    "e7000000-0000-4000-8000-000000000001".
Definition bridge_draws : Draws :=
  mkDraws 1700500000000000%Z "07000000-0000-4000-8000-000000000004"
    "e7000000-0000-4000-8000-000000000004".
Definition late_draws : Draws :=
  mkDraws 1701000001000000%Z "07000000-0000-4000-8000-000000000002"
    "e7000000-0000-4000-8000-000000000002".

Definition routine_operation : OfflineOperation :=
  mkOfflineOperation (uuid_a early_draws) "check_in" check_in_payload alice 1
    3 0 (utcnow early_draws) None "pending".
Definition bridge_operation : OfflineOperation :=
  mkOfflineOperation (uuid_a bridge_draws) "check_in" check_in_payload alice 1
    3 0 (utcnow bridge_draws) None "pending".
Definition urgent_operation : OfflineOperation :=
  mkOfflineOperation (uuid_a late_draws) "check_in" check_in_payload alice 2
    3 0 (utcnow late_draws) None "pending".

Definition redis_two_priorities : Redis :=
  snd (queue_operation "check_in" check_in_payload alice 2 late_draws
         (snd (queue_operation "check_in" check_in_payload alice 1
                 bridge_draws
                 (snd (queue_operation "check_in" check_in_payload alice 1
                         early_draws redis_empty))))).

(** A check-in for a session nobody created, queued and then attempted
    three times, each attempt on the member the previous one wrote. *)
Definition lost_payload : OperationData :=
  mkOperationData (Some "50000000-0000-4000-8000-00000000ffff") None None
    (Some (407128 # 10000)) (Some (-740060 # 10000)) (Some 0%Q) None None.

Definition lost_operation : OfflineOperation :=
  mkOfflineOperation (uuid_a draws1) "check_in" lost_payload alice 1 3 0
    (utcnow draws1) None "pending".

Definition redis_lost : Redis :=
  snd (queue_operation "check_in" lost_payload alice 1 draws1 redis_empty).

Definition attempt1 : Processed :=
  process_operation flat_geodesic lost_operation draws2 db_empty redis_lost.
Definition attempt2 : Processed :=
  process_operation flat_geodesic (operation_after attempt1) draws3 db_empty
    (redis_after attempt1).
Definition attempt3 : Processed :=
  process_operation flat_geodesic (operation_after attempt2) draws4 db_empty
    (redis_after attempt2).

(** Alice's queue holds the start of a session at the hall and, queued
    100 seconds later, a check-in; the database holds the hall only. *)
Definition start_payload : OperationData :=
  mkOperationData None (Some alice) (Some (meeting_id_of hall)) None None
    None None None.

Definition queued_start : OfflineOperation :=
  mkOfflineOperation (uuid_a draws3) "create_session" start_payload alice 1
    3 0 (utcnow draws3) None "pending".

Definition queued_follow_up : OfflineOperation :=
  mkOfflineOperation (uuid_a draws4) "check_in" check_in_payload alice 1 3 0
    (utcnow draws4) None "pending".

Definition redis_two_pending : Redis :=
  snd (queue_operation "check_in" check_in_payload alice 1 draws4
         (snd (queue_operation "create_session" start_payload alice 1 draws3
                 redis_empty))).

Definition first_processed : Processed :=
  process_operation flat_geodesic queued_start draws5 db_empty
    redis_two_pending.

(** Two operations of priority 1 queued within one second, the later
    one drawing the greater identifier. *)
Definition tick_draws : Draws :=
  mkDraws 1700000000200000%Z "07000000-0000-4000-8000-000000000003"
    "e7000000-0000-4000-8000-000000000003".

Definition tick_operation : OfflineOperation :=
  mkOfflineOperation (uuid_a tick_draws) "check_in" check_in_payload alice 1
    3 0 (utcnow tick_draws) None "pending".

Definition redis_same_second : Redis :=
  snd (queue_operation "check_in" check_in_payload alice 1 tick_draws
         (snd (queue_operation "check_in" check_in_payload alice 1
                 early_draws redis_empty))).

(** ** Further code of the services *)

(** [LocationService.is_location_valid]. *)
Definition is_location_valid (lat lng : Q) (acc : option Q) : bool :=
  if negb (Qle_bool (-90) lat && Qle_bool lat 90)
     || negb (Qle_bool (-180) lng && Qle_bool lng 180)
  then false
  else
    match acc with
    | Some a => if Qltb 1000 a then false else true
    | None => true
    end.

(** [schemas/session.py], [class SessionEventCreate]: the bounds of its
    [Field]s on the three values that reach [LocationData]
    ([ge=-90, le=90], [ge=-180, le=180], [ge=0, le=1000]). *)
Definition SessionEventCreate_accepts (lat lng : Q) (acc : option Q) : bool :=
  Qle_bool (-90) lat && Qle_bool lat 90
  && Qle_bool (-180) lng && Qle_bool lng 180
  && match acc with
     | Some a => Qle_bool 0 a && Qle_bool a 1000
     | None => true
     end.

(** The moves of a session's status that the service performs. *)
Definition status_move (a b : SessionStatus) : Prop :=
  a = b \/ (a = ACTIVE /\ b = CHECKED_IN)
  \/ (a = CHECKED_IN /\ b = COMPLETED) \/ b = ENDED.

(** A member of a pending set as the service writes it: pending, with
    retries left, under the key of its owner and with its own score. *)
Definition pending_member_ok (key : string) (entry : OfflineOperation * Z) : Prop :=
  op_status (fst entry) = "pending" /\
  max_retries (fst entry) = 3%Z /\
  (0 <= retry_count (fst entry) < 3)%Z /\
  snd entry = score (fst entry) /\
  key = queue_key (user_id (fst entry)).

(** A member of a failed list as the service writes it. *)
Definition failed_member_ok (key : string) (m : OfflineOperation) : Prop :=
  op_status m = "failed" /\ max_retries m = 3%Z /\ retry_count m = 3%Z /\
  key = failed_key (user_id m).

Definition queue_consistent (r : Redis) : Prop :=
  (forall key zs, zsets r !! key = Some zs -> Forall (pending_member_ok key) zs)
  /\ (forall key l, lists r !! key = Some l -> Forall (failed_member_ok key) l).

(** The members of the failed lists bear the canonical text of a UUID as
    [user_id]. *)
Definition failed_canonical (r : Redis) : Prop :=
  forall key l, lists r !! key = Some l ->
                Forall (fun m => parse_uuid (user_id m) = Some (user_id m)) l.

(** Between two databases: the meetings are the same and the events of
    the first are the leading events of the second, which has [n] more
    at most. *)
Definition events_extended (n : nat) (db db' : DB) : Prop :=
  meetings db' = meetings db /\
  exists added, events db' = (events db ++ added)%list /\ (length added <= n)%nat.

(** Between two databases: every session row of the first is still in
    its place in the second, under the same identifier and with a status
    it may have moved to, and one row at most has been added. *)
Definition sessions_advanced (db db' : DB) : Prop :=
  exists f added,
    sessions db' = (map f (sessions db) ++ added)%list /\
    (length added <= 1)%nat /\
    forall r, In r (sessions db) ->
              session_id_of (f r) = session_id_of r /\
              status_move (status r) (status (f r)).

(** A lower-case hexadecimal digit. *)
Definition canonical_digit (c : ascii) : bool :=
  match hex_digit c with
  | Some d => Ascii.eqb d c
  | None => false
  end.

Fixpoint all_chars (p : ascii -> bool) (s : string) : bool :=
  match s with
  | EmptyString => true
  | String c rest => p c && all_chars p rest
  end.

(** One call of the offline service, on any database. *)
Inductive queue_step (geodesic : Q * Q -> Q * Q -> outcome Q)
    (json_ltb : OfflineOperation -> OfflineOperation -> bool)
    : Redis -> Redis -> Prop :=
| qstep_queue_operation kind payload uid prio dr r :
    queue_step geodesic json_ltb r
      (snd (queue_operation kind payload uid prio dr r))
| qstep_process_user_queue uid max_operations draws db r :
    queue_step geodesic json_ltb r
      (run_redis (process_user_queue geodesic json_ltb uid max_operations
                    draws db r))
| qstep_retry_failed_operation operation_id uid r :
    queue_step geodesic json_ltb r
      (snd (retry_failed_operation operation_id uid r))
| qstep_clear_user_queue uid r :
    queue_step geodesic json_ltb r (snd (clear_user_queue uid r)).

Inductive queue_reachable (geodesic : Q * Q -> Q * Q -> outcome Q)
    (json_ltb : OfflineOperation -> OfflineOperation -> bool)
    : Redis -> Prop :=
| queue_reachable_empty : queue_reachable geodesic json_ltb (mkRedis ∅ ∅)
| queue_reachable_step r r' :
    queue_reachable geodesic json_ltb r ->
    queue_step geodesic json_ltb r r' ->
    queue_reachable geodesic json_ltb r'.

(** A meeting with a radius of 6 km, and a point some 3.2 km from it on
    the grid. *)
Definition arena : Meeting :=
  mkMeeting "0a000000-0000-4000-8000-000000000002" "Arena" "1 Ring Rd"
    (4097 # 100) (-74) 6000 true.

Definition db_arena : DB := mkDB [hall; arena] [] [].

Definition arena_distance : Q :=
  Eval vm_compute in
    match flat_geodesic (meeting_lat arena, meeting_lng arena) (41, -74)%Q with
    | Returned d => d
    | Raised _ => 0%Q
    end.

(** The hall renamed, every other column as before. *)
Definition demo_hall : Meeting := set_meeting_name hall "AYA Demo Meet".

(** Alice's started session with the hall renamed. *)
Definition db_started_demo : DB :=
  mkDB [demo_hall] (sessions db_started) (events db_started).

(** A place some 5.6 km north of the hall on the grid. *)
Definition far_away : LocationData :=
  mkLocationData (407628 # 10000) (-740060 # 10000) (Some 0%Q).





(** Bob logs in and gets a general session. *)
Definition bob : string := "c0000000-0000-4000-8000-00000000000b".

Definition db_general : DB :=
  snd (create_general_session bob None draws1 db_empty).

Definition general_session : Session :=
  mkSession (uuid_a draws1) bob None "General Session" "N/A" 0 0
    (Some "General session created on login") ACTIVE false.

(** Alice's attempt to check in at the centre of the hall. *)
Definition db_attempted : DB :=
  snd (check_in flat_geodesic (uuid_a draws1) at_hall None draws2 db_started).


(** A payload that names Alice's session and nothing else. *)
Definition bare_payload : OperationData :=
  mkOperationData (Some (uuid_a draws1)) None None None None None None None.

(** An operation of a type the service does not know, queued for Alice. *)
Definition sync_operation : OfflineOperation :=
  mkOfflineOperation (uuid_a draws1) "sync_profile" bare_payload alice 1 3 0
    (utcnow draws1) None "pending".

Definition redis_sync : Redis :=
  snd (queue_operation "sync_profile" bare_payload alice 1 draws1 redis_empty).

(** A check-in for Alice's session whose payload has no coordinates. *)
Definition partial_operation : OfflineOperation :=
  mkOfflineOperation (uuid_a draws2) "check_in" bare_payload alice 1 3 0
    (utcnow draws2) None "pending".

(** Bob has a check-in pending beside Alice's two operations. *)
Definition redis_two_users : Redis :=
  snd (queue_operation "check_in" check_in_payload bob 1 draws2
         redis_two_pending).

(** * Properties *)

(** ** Lists of rows *)

Section Rows.
Context {A : Type}.
Implicit Types (p : A -> bool) (f : A -> A) (l : list A).

Lemma filter_map_le p f l :
  (forall x, In x l -> p (f x) = true -> p x = true) ->
  (length (List.filter p (map f l)) <= length (List.filter p l))%nat.
Proof.
  induction l as [|x l IH]; intros H; simpl; [lia|].
  assert (IH' := IH (fun y Hy => H y (or_intror Hy))).
  destruct (p (f x)) eqn:E.
  - rewrite (H x (or_introl eq_refl) E). simpl. lia.
  - destruct (p x); simpl; lia.
Qed.

Lemma filter_map_same p f l :
  (forall x, In x l -> p (f x) = p x) ->
  length (List.filter p (map f l)) = length (List.filter p l).
Proof.
  induction l as [|x l IH]; intros H; simpl; [reflexivity|].
  assert (IH' := IH (fun y Hy => H y (or_intror Hy))).
  rewrite (H x (or_introl eq_refl)).
  destruct (p x); simpl; rewrite IH'; reflexivity.
Qed.

Lemma filter_map_nil p f l :
  (forall x, In x l -> p (f x) = false) -> List.filter p (map f l) = [].
Proof.
  induction l as [|x l IH]; intros H; simpl; [reflexivity|].
  rewrite (H x (or_introl eq_refl)). apply IH. intros y Hy. apply H. now right.
Qed.

Lemma filter_singleton_In p l x y :
  List.filter p l = [x] -> In y l -> p y = true -> y = x.
Proof.
  intros Hf Hy Hp.
  assert (Hin : In y (List.filter p l)) by (apply filter_In; auto).
  rewrite Hf in Hin. destruct Hin as [->|[]]. reflexivity.
Qed.

Lemma filter_short_In p l x :
  (length (List.filter p l) <= 1)%nat -> In x l -> p x = true ->
  List.filter p l = [x].
Proof.
  intros Hlen Hx Hp.
  assert (Hin : In x (List.filter p l)) by (apply filter_In; auto).
  destruct (List.filter p l) as [|y [|z t]]; simpl in *.
  - contradiction.
  - destruct Hin as [->|[]]. reflexivity.
  - lia.
Qed.

Lemma scalar_one_or_none_some l x :
  scalar_one_or_none l = Returned (Some x) -> l = [x].
Proof. destruct l as [|y [|z t]]; simpl; intros H; congruence. Qed.

End Rows.

(** ** The session tables under the operations *)

Lemma set_event_time_from_select kind label s v dr db :
  set_event_time kind label from_select s v dr db = Raised MissingGreenlet.
Proof. reflexivity. Qed.

Lemma live_sessions_add cid s db :
  live_sessions cid (add_session s db)
  = (live_sessions cid db ++ (if live_for cid s then [s] else []))%list.
Proof.
  unfold live_sessions, add_session; simpl. rewrite List.filter_app. simpl.
  destruct (live_for cid s); reflexivity.
Qed.

Lemma live_for_not_live cid s : is_live (status s) = false -> live_for cid s = false.
Proof. intros H. unfold live_for. rewrite H. apply andb_false_r. Qed.

Lemma live_update_not_live s db cid :
  is_live (status s) = false ->
  (length (live_sessions cid (update_session s db))
   <= length (live_sessions cid db))%nat.
Proof.
  intros Hs. unfold live_sessions, update_session; simpl.
  apply filter_map_le. intros x _.
  destruct (String.eqb (session_id_of x) (session_id_of s)); [|auto].
  rewrite (live_for_not_live cid s Hs). discriminate.
Qed.

Lemma get_active_session_some cid db s :
  get_active_session cid db = Some s -> live_sessions cid db = [s].
Proof.
  unfold get_active_session.
  change (List.filter _ (sessions db)) with (live_sessions cid db).
  destruct (live_sessions cid db) as [|y [|z t]]; simpl; congruence.
Qed.

Lemma get_active_session_none cid db :
  one_live_session db -> get_active_session cid db = None ->
  live_sessions cid db = [].
Proof.
  intros Hinv. specialize (Hinv cid). unfold get_active_session.
  change (List.filter _ (sessions db)) with (live_sessions cid db).
  destruct (live_sessions cid db) as [|y [|z t]]; simpl in *;
    [reflexivity | congruence | lia].
Qed.

Lemma get_active_session_live cid db s :
  one_live_session db -> In s (sessions db) -> live_for cid s = true ->
  get_active_session cid db = Some s.
Proof.
  intros Hinv Hin Hlive. unfold get_active_session.
  change (List.filter _ (sessions db)) with (live_sessions cid db).
  unfold live_sessions.
  rewrite (filter_short_In _ _ s (Hinv cid) Hin Hlive). reflexivity.
Qed.

(** Ending the one live session of a participant leaves that participant
    without a live session. *)
Lemma live_sessions_after_ending cid db s :
  live_sessions cid db = [s] ->
  live_sessions cid (update_session (ended s) db) = [].
Proof.
  intros Hlive. unfold live_sessions, update_session; simpl.
  apply filter_map_nil. intros x Hx.
  destruct (String.eqb (session_id_of x) (session_id_of s)) eqn:E.
  - reflexivity || (unfold live_for; simpl; apply andb_false_r).
  - destruct (live_for cid x) eqn:L; [|reflexivity].
    rewrite (filter_singleton_In _ _ _ _ Hlive Hx L) in E.
    rewrite String.eqb_refl in E. discriminate.
Qed.

Lemma ended_not_live s : is_live (status (ended s)) = false.
Proof. reflexivity. Qed.

Lemma one_live_add cid s db :
  contact_id s = cid -> live_sessions cid db = [] ->
  one_live_session db -> one_live_session (add_session s db).
Proof.
  intros Hc Hnone Hinv c. rewrite live_sessions_add.
  destruct (live_for c s) eqn:L; [|rewrite app_nil_r; apply Hinv].
  unfold live_for in L. apply andb_true_iff in L as [L _].
  apply String.eqb_eq in L. rewrite Hc in L. subst c.
  rewrite Hnone. simpl. lia.
Qed.

Lemma one_live_update_not_live s db :
  is_live (status s) = false -> one_live_session db ->
  one_live_session (update_session s db).
Proof.
  intros Hs Hinv c. pose proof (live_update_not_live s db c Hs).
  specialize (Hinv c). lia.
Qed.

Lemma create_session_preserves cid mid notes dr db :
  one_live_session db ->
  one_live_session (snd (create_session cid mid notes dr db)).
Proof.
  intros Hinv. unfold create_session.
  destruct (scalar_one_or_none (List.filter _ (meetings db))) as [[meeting|]|e];
    simpl; [| |assumption].
  - destruct (get_active_session cid db) as [existing|] eqn:G.
    + apply (one_live_add cid); [reflexivity| |].
      * apply live_sessions_after_ending, get_active_session_some, G.
      * apply one_live_update_not_live; [apply ended_not_live|assumption].
    + apply (one_live_add cid); [reflexivity| |assumption].
      now apply get_active_session_none.
  - destruct (scalar_one_or_none _) as [[?|]|?]; assumption.
Qed.

Lemma create_general_session_preserves cid notes dr db :
  one_live_session db ->
  one_live_session (snd (create_general_session cid notes dr db)).
Proof.
  intros Hinv. unfold create_general_session.
  destruct (get_active_session cid db) as [existing|] eqn:G; simpl.
  - assumption.
  - apply (one_live_add cid); [reflexivity| |assumption].
    now apply get_active_session_none.
Qed.

Lemma one_live_session_ext db db' :
  sessions db' = sessions db -> one_live_session db -> one_live_session db'.
Proof.
  intros E H cid. unfold live_sessions. rewrite E. apply H.
Qed.

Section Preservation.

Variable geodesic : Q * Q -> Q * Q -> outcome Q.

Lemma create_session_event_cases sid kind loc mid notes dr db :
  (exists e, create_session_event geodesic sid kind loc mid notes dr db
             = (Some e, add_event e db))
  \/ create_session_event geodesic sid kind loc mid notes dr db = (None, db).
Proof.
  unfold create_session_event. destruct (_ && _); eauto.
Qed.

Lemma check_in_outcomes sid loc notes dr db :
  check_in geodesic sid loc notes dr db = (None, db)
  \/ exists e, check_in geodesic sid loc notes dr db = (None, add_event e db).
Proof.
  unfold check_in.
  destruct (scalar_one_or_none _) as [[session|]|e]; auto.
  destruct (negb (status_eqb (status session) ACTIVE)); auto.
  destruct (scalar_one_or_none _) as [[meeting|]|e]; auto.
  destruct (_ && _); auto.
  destruct (create_session_event_cases sid CHECK_IN loc
              (Some (py_str (meeting_id session))) notes dr db)
    as [[ev ->]| ->]; [|auto].
  right. exists ev. cbv zeta.
  now rewrite (set_event_time_from_select CHECK_IN "check_in").
Qed.

Lemma check_out_outcomes sid loc notes dr db :
  check_out geodesic sid loc notes dr db = (None, db)
  \/ exists e, check_out geodesic sid loc notes dr db = (None, add_event e db).
Proof.
  unfold check_out.
  destruct (scalar_one_or_none _) as [[session|]|e]; auto.
  destruct (negb (status_eqb (status session) CHECKED_IN)); auto.
  cbv zeta. destruct (negb _); auto.
  destruct (create_session_event_cases sid CHECK_OUT loc
              (Some (py_str (meeting_id session))) notes dr db)
    as [[ev ->]| ->]; [|auto].
  right. exists ev.
  now rewrite (set_event_time_from_select CHECK_OUT "check_out").
Qed.

Lemma end_session_outcome sid reason dr db :
  end_session sid reason dr db = (false, db).
Proof.
  unfold end_session.
  destruct (scalar_one_or_none _) as [[session|]|e]; reflexivity.
Qed.

Lemma check_in_preserves sid loc notes dr db :
  one_live_session db ->
  one_live_session (snd (check_in geodesic sid loc notes dr db)).
Proof.
  intros Hinv.
  destruct (check_in_outcomes sid loc notes dr db) as [->|[e ->]];
    [assumption|].
  now apply (one_live_session_ext db).
Qed.

Lemma check_out_preserves sid loc notes dr db :
  one_live_session db ->
  one_live_session (snd (check_out geodesic sid loc notes dr db)).
Proof.
  intros Hinv.
  destruct (check_out_outcomes sid loc notes dr db) as [->|[e ->]];
    [assumption|].
  now apply (one_live_session_ext db).
Qed.

Lemma end_session_preserves sid reason dr db :
  one_live_session db ->
  one_live_session (snd (end_session sid reason dr db)).
Proof. intros Hinv. now rewrite end_session_outcome. Qed.

Lemma core_step_preserves db db' :
  core_step geodesic db db' -> one_live_session db -> one_live_session db'.
Proof.
  intros [] Hinv.
  - now apply create_session_preserves.
  - now apply create_general_session_preserves.
  - now apply check_in_preserves.
  - now apply check_out_preserves.
  - now apply end_session_preserves.
Qed.

Lemma reachable_one_live_session db :
  reachable geodesic db -> one_live_session db.
Proof.
  induction 1 as [ms|db db' _ IH Hstep].
  - intros cid. simpl. lia.
  - exact (core_step_preserves db db' Hstep IH).
Qed.

End Preservation.

(** ** One live session per participant *)

Lemma create_session_over_live cid mid notes dr db prior new db' :
  get_active_session cid db = Some prior ->
  create_session cid mid notes dr db = (Returned new, db') ->
  live_sessions cid db' = [new] /\ In (ended prior) (sessions db').
Proof.
  intros G. unfold create_session.
  destruct (scalar_one_or_none _) as [[meeting|]|e]; simpl.
  - rewrite G. intros [= <- <-]. fold (ended prior). split.
    + rewrite live_sessions_add.
      rewrite (live_sessions_after_ending cid db prior
                 (get_active_session_some _ _ _ G)).
      unfold live_for; simpl. now rewrite String.eqb_refl.
    + simpl. apply in_or_app. left. apply in_map_iff. exists prior. split.
      * now rewrite String.eqb_refl.
      * apply get_active_session_some in G.
        assert (H : In prior (live_sessions cid db)) by (rewrite G; now left).
        now apply filter_In in H as [H _].
  - destruct (scalar_one_or_none _) as [[?|]|?]; discriminate.
  - discriminate.
Qed.

(** C1.  In every state reached from a database without sessions by
    [create_session], [create_general_session], [check_in], [check_out]
    and [end_session], each participant has at most one session whose
    status is [ACTIVE] or [CHECKED_IN]; and in such a state
    [create_session] for a participant with a live session and an active
    meeting does return: it leaves the prior session [ENDED] and adds the
    new one, [ACTIVE], which is then the participant's only live
    session, in a state that is reachable again. *)
Theorem at_most_one_live_session geodesic db :
  reachable geodesic db ->
  (forall cid, (length (live_sessions cid db) <= 1)%nat) /\
  (forall cid mid notes dr prior meeting,
      get_active_session cid db = Some prior ->
      List.filter (fun m => String.eqb (meeting_id_of m) mid
                            && meeting_is_active m) (meetings db)
      = [meeting] ->
      exists new db',
        create_session cid mid notes dr db = (Returned new, db') /\
        reachable geodesic db' /\
        live_sessions cid db' = [new] /\
        In (ended prior) (sessions db') /\
        status (ended prior) = ENDED /\ status new = ACTIVE /\
        forall c, (length (live_sessions c db') <= 1)%nat).
Proof.
  intros Hreach. split.
  - exact (reachable_one_live_session geodesic db Hreach).
  - intros cid mid notes dr prior meeting G Hm.
    destruct (create_session cid mid notes dr db) as [result db'] eqn:C.
    assert (R : reachable geodesic db').
    { replace db' with (snd (create_session cid mid notes dr db))
        by now rewrite C.
      apply (reachable_step geodesic db); [exact Hreach|].
      apply step_create_session. }
    assert (Hnew : exists new, result = Returned new /\ status new = ACTIVE).
    { revert C. unfold create_session. rewrite Hm. simpl.
      intros [= <- _]. eexists. split; reflexivity. }
    destruct Hnew as (new & -> & Hst).
    destruct (create_session_over_live _ _ _ _ _ _ _ _ G C) as [H1 H2].
    exists new, db'. repeat split; try assumption.
    exact (reachable_one_live_session geodesic db' R).
Qed.

Lemma at_most_one_live_session_witness :
  (length (live_sessions alice db_started) <= 1)%nat /\
  exists new db',
    create_session alice (meeting_id_of hall) None draws3 db_started
    = (Returned new, db') /\
    live_sessions alice db' = [new] /\
    In (ended started_session) (sessions db') /\
    status new = ACTIVE.
Proof.
  assert (R : reachable flat_geodesic db_started).
  { apply (reachable_step flat_geodesic db_empty).
    - apply reachable_initial.
    - apply step_create_session. }
  destruct (at_most_one_live_session flat_geodesic db_started R) as [H1 H2].
  split; [exact (H1 alice)|].
  destruct (H2 alice (meeting_id_of hall) None draws3 started_session hall
              eq_refl eq_refl)
    as (new & db' & C & _ & L & I & _ & A & _).
  exists new, db'. repeat split; assumption.
Defined.

(** ** Check-in *)

Lemma sessions_with_id_In sid db session :
  In session (sessions db) -> session_id_of session = sid ->
  In session (sessions_with_id sid db).
Proof.
  intros Hin Hid. apply filter_In. split; [assumption|].
  now apply String.eqb_eq.
Qed.

Lemma check_in_rejects geodesic sid loc notes dr db session :
  In session (sessions db) -> session_id_of session = sid ->
  status session <> ACTIVE ->
  check_in geodesic sid loc notes dr db = (None, db).
Proof.
  intros Hin Hid Hst. pose proof (sessions_with_id_In sid db session Hin Hid) as H.
  unfold check_in.
  change (List.filter _ (sessions db)) with (sessions_with_id sid db).
  destruct (sessions_with_id sid db) as [|x [|y t]]; simpl in *.
  - contradiction.
  - destruct H as [->|[]].
    destruct (status session); simpl; congruence.
  - reflexivity.
Qed.

(** C5, as amended.  For a session whose status is not [ACTIVE],
    [check_in] raises nothing: the caller gets [None] back (no
    [ConflictError]), and the sessions, their fields and the events are
    what they were. *)
Theorem check_in_not_active_returns_none geodesic sid loc notes dr db session :
  In session (sessions db) -> session_id_of session = sid ->
  status session <> ACTIVE ->
  check_in_outcome geodesic sid loc notes dr db = (Returned None, db).
Proof.
  intros Hin Hid Hst. unfold check_in_outcome.
  now rewrite (check_in_rejects geodesic sid loc notes dr db session).
Qed.

Lemma db_checked_in_sessions : sessions db_checked_in = [checked_in_session].
Proof. reflexivity. Qed.

Lemma check_in_not_active_returns_none_witness :
  check_in_outcome flat_geodesic (uuid_a draws1) at_hall None draws3
    db_checked_in = (Returned None, db_checked_in).
Proof.
  apply (check_in_not_active_returns_none flat_geodesic (uuid_a draws1)
           at_hall None draws3 db_checked_in checked_in_session).
  - rewrite db_checked_in_sessions. simpl. left. reflexivity.
  - reflexivity.
  - simpl. discriminate.
Defined.

(** C5 as written fails: on Alice's checked-in session a further
    check-in does not end in a [ConflictError]. *)
Lemma check_in_not_active_no_conflict_error :
  ~ exists msg,
      fst (check_in_outcome flat_geodesic (uuid_a draws1) at_hall None draws3
             db_checked_in) = Raised (ConflictError msg).
Proof.
  intros [msg H]. vm_compute in H. discriminate.
Qed.





(** With the identifier of the meeting in place the leniency changes
    nothing: some 5.6 km from the hall a check-in leaves the database as
    it was, for the hall and for the hall renamed to a test meeting. *)
Example test_meeting_out_of_range_refused :
  is_test_meeting hall = false /\ is_test_meeting demo_hall = true /\
  check_in flat_geodesic (uuid_a draws1) far_away None draws2 db_started
  = (None, db_started) /\
  check_in flat_geodesic (uuid_a draws1) far_away None draws2 db_started_demo
  = (None, db_started_demo).
Proof. repeat split. Qed.


(** ** Starting a session *)

Lemma live_for_intro cid s :
  contact_id s = cid -> is_live (status s) = true -> live_for cid s = true.
Proof.
  intros Hc Hl. unfold live_for. rewrite Hl, andb_true_r.
  now apply String.eqb_eq.
Qed.

(** C6, as amended.  When the participant has a live session and the
    meeting exists and is active, [create_session] first rewrites the
    prior session with status [ENDED] (and [is_complete] set), appends no
    event at all, and then adds the new session: [ACTIVE], with name,
    address, latitude and longitude copied from the meeting. *)
Theorem create_session_ends_prior cid mid notes dr db prior meeting :
  one_live_session db ->
  In prior (sessions db) -> contact_id prior = cid ->
  is_live (status prior) = true ->
  List.filter (fun m => String.eqb (meeting_id_of m) mid && meeting_is_active m)
    (meetings db) = [meeting] ->
  exists new db',
    create_session cid mid notes dr db = (Returned new, db') /\
    sessions db'
    = (map (fun r => if String.eqb (session_id_of r) (session_id_of prior)
                     then ended prior else r) (sessions db) ++ [new])%list /\
    In (ended prior) (sessions db') /\ status (ended prior) = ENDED /\
    is_complete (ended prior) = true /\
    events db' = events db /\
    status new = ACTIVE /\ contact_id new = cid /\ meeting_id new = Some mid /\
    dest_name new = meeting_name meeting /\
    dest_address new = meeting_address meeting /\
    dest_lat new = meeting_lat meeting /\
    dest_lng new = meeting_lng meeting.
Proof.
  intros Hinv Hin Hc Hl Hm.
  pose proof (get_active_session_live cid db prior Hinv Hin
                (live_for_intro cid prior Hc Hl)) as G.
  unfold create_session. rewrite Hm, G. simpl.
  eexists _, _. split; [reflexivity|]. simpl. repeat split.
  apply in_or_app. left. apply in_map_iff. exists prior.
  split; [now rewrite String.eqb_refl | assumption].
Qed.

Lemma db_checked_in_one_live : one_live_session db_checked_in.
Proof.
  intros cid. unfold live_sessions. simpl.
  destruct (live_for cid checked_in_session); simpl; lia.
Qed.

Lemma create_session_ends_prior_witness :
  exists new db',
    create_session alice (meeting_id_of hall) None draws3 db_checked_in
    = (Returned new, db') /\
    In (ended checked_in_session) (sessions db') /\
    events db' = events db_checked_in /\
    status new = ACTIVE /\ dest_name new = meeting_name hall.
Proof.
  destruct (create_session_ends_prior alice (meeting_id_of hall) None draws3
              db_checked_in checked_in_session hall)
    as (new & db' & H1 & _ & H3 & _ & _ & H6 & H7 & _ & _ & H10 & _).
  - exact db_checked_in_one_live.
  - rewrite db_checked_in_sessions. simpl. left. reflexivity.
  - reflexivity.
  - reflexivity.
  - reflexivity.
  - exists new, db'. repeat split; assumption.
Defined.

(** C6 as written fails: after Alice, checked in, starts again, the
    database holds no [STATUS_CHANGE] event for her prior session. *)
Lemma create_session_no_status_change_event :
  ~ exists e, In e (events db_restarted) /\
              event_session_id e = session_id_of checked_in_session /\
              event_type e = STATUS_CHANGE.
Proof.
  intros [e [Hin [_ Hty]]]. vm_compute in Hin.
  destruct Hin as [<-|[]]. discriminate.
Qed.

(** ** General sessions *)



(** ** The geofence check *)

Lemma Qltb_true x y : Qltb x y = true <-> (x < y)%Q.
Proof.
  unfold Qltb. rewrite negb_true_iff. split.
  - intros H. apply Qnot_le_lt. intros Hle. apply Qle_bool_iff in Hle. congruence.
  - intros H. destruct (Qle_bool y x) eqn:E; [|reflexivity].
    apply Qle_bool_iff in E. lra.
Qed.

Lemma Qltb_false x y : Qltb x y = false <-> (y <= x)%Q.
Proof. unfold Qltb. rewrite negb_false_iff. apply Qle_bool_iff. Qed.

Lemma py_min_Qmin a b : (py_min a b == Qmin a b)%Q.
Proof.
  unfold py_min. destruct (Qltb b a) eqn:H.
  - apply Qltb_true in H. rewrite Q.min_r; lra.
  - apply Qltb_false in H. rewrite Q.min_l; lra.
Qed.

Lemma py_max_Qmax a b : (py_max a b == Qmax a b)%Q.
Proof.
  unfold py_max. destruct (Qltb a b) eqn:H.
  - apply Qltb_true in H. rewrite Q.max_r; lra.
  - apply Qltb_false in H. rewrite Q.max_l; lra.
Qed.
















(** ** Replaying a queued check-in *)





(** ** The pending set as Redis lists it *)

Section Listing.

Variable json_ltb : OfflineOperation -> OfflineOperation -> bool.

Lemma zrev_before_true a b : zrev_before json_ltb a b = true -> by_score a b.
Proof.
  unfold zrev_before, by_score. intros H.
  apply orb_true_iff in H as [H|H]; [lia|].
  apply andb_true_iff in H as [H _]. lia.
Qed.

Lemma zrev_before_false a b : zrev_before json_ltb a b = false -> by_score b a.
Proof.
  unfold zrev_before, by_score. intros H.
  apply orb_false_iff in H as [H _]. lia.
Qed.

Lemma zrev_insert_perm x l : Permutation (zrev_insert json_ltb x l) (x :: l).
Proof.
  induction l as [|y l IH]; simpl; [reflexivity|].
  destruct (zrev_before json_ltb x y); [reflexivity|].
  rewrite IH. apply perm_swap.
Qed.

Lemma zrev_sort_perm l : Permutation (zrev_sort json_ltb l) l.
Proof.
  induction l as [|x l IH]; simpl; [reflexivity|].
  rewrite zrev_insert_perm. now constructor.
Qed.

Lemma zrev_insert_sorted x l :
  StronglySorted by_score l -> StronglySorted by_score (zrev_insert json_ltb x l).
Proof.
  induction 1 as [|y l Hs IH Hall]; simpl.
  - repeat constructor.
  - destruct (zrev_before json_ltb x y) eqn:E.
    + apply zrev_before_true in E. constructor; [now constructor|].
      constructor; [exact E|].
      rewrite List.Forall_forall in Hall |- *. intros z Hz.
      specialize (Hall z Hz). unfold by_score in *. lia.
    + apply zrev_before_false in E. constructor; [exact IH|].
      rewrite List.Forall_forall in Hall |- *. intros z Hz.
      apply (Permutation_in _ (zrev_insert_perm x l)) in Hz.
      destruct Hz as [<-|Hz]; [exact E|now apply Hall].
Qed.

Lemma zrev_sort_sorted l : StronglySorted by_score (zrev_sort json_ltb l).
Proof.
  induction l as [|x l IH]; simpl; [constructor|].
  now apply zrev_insert_sorted.
Qed.

Lemma zrev_sort_length l : length (zrev_sort json_ltb l) = length l.
Proof. apply Permutation_length, zrev_sort_perm. Qed.

End Listing.

Lemma redis_range_all {A : Type} (l : list A) (stop : Z) :
  (Z.of_nat (length l) <= stop + 1)%Z -> redis_range l 0 stop = l.
Proof.
  intros H. unfold redis_range. cbv zeta.
  replace (if (0 <? 0)%Z then (Z.of_nat (length l) + 0)%Z else 0%Z)
    with 0%Z by reflexivity.
  replace (if (0 <? 0)%Z then 0%Z else 0%Z) with 0%Z by reflexivity.
  set (n := Z.of_nat (length l)) in *.
  destruct l as [|x l].
  { destruct (_ || _); [reflexivity|]. now rewrite skipn_nil, firstn_nil. }
  assert (Hn : (0 < n)%Z) by (unfold n; simpl; lia).
  destruct (Z.ltb_spec stop 0) as [E1|E1]; [lia|].
  destruct (Z.ltb_spec stop 0) as [E2|E2]; [lia|].
  destruct (Z.leb_spec n 0) as [E3|E3]; [lia|]. simpl orb. cbv iota.
  destruct (Z.leb_spec n stop) as [E4|E4].
  - replace (n - 1 - 0 + 1)%Z with n by lia.
    unfold n. rewrite Nat2Z.id. simpl. now rewrite firstn_all.
  - replace (stop - 0 + 1)%Z with n by lia.
    unfold n. rewrite Nat2Z.id. simpl. now rewrite firstn_all.
Qed.

(** Members leave [ZREVRANGE] by falling score: a member listed after
    another never has the greater score. *)
Lemma pending_by_falling_score json_ltb uid r :
  StronglySorted by_score
    (zrev_sort json_ltb (zset_of (queue_key uid) r)).
Proof. apply zrev_sort_sorted. Qed.

(** Within 1000000 seconds the greater priority has the greater score,
    and at equal priority so has the earlier second. *)
Lemma score_orders a b :
  ((priority b < priority a ->
    epoch_seconds (created_at a) - epoch_seconds (created_at b) < 1000000 ->
    score b < score a) /\
   (priority a = priority b ->
    epoch_seconds (created_at a) < epoch_seconds (created_at b) ->
    score b < score a))%Z.
Proof. unfold score. split; intros; nia. Qed.

(** C7 at a failing input.  Alice queues an operation of priority 1,
    another one 500000 seconds later and, 1000001 seconds after the
    first, one of priority 2.  Whatever the order of the JSON texts, the
    pending list, which [process_user_queue] works through from the
    front, has the first operation of priority 1 before the one of
    priority 2, since its score is the greater of the two. *)
Theorem older_low_priority_listed_first :
  priority routine_operation = 1%Z /\ priority urgent_operation = 2%Z /\
  (score urgent_operation < score routine_operation)%Z /\
  forall json_ltb,
    get_pending_operations json_ltb alice 50 redis_two_priorities
    = [routine_operation; urgent_operation; bridge_operation].
Proof.
  split; [reflexivity|]. split; [reflexivity|]. split; [reflexivity|].
  intros json_ltb. vm_compute. reflexivity.
Qed.

(** Two operations of one priority queued in the same second have one
    score, and Redis lists them by their JSON texts: here the one queued
    0.2 s later comes first, its identifier being the greater. *)
Example same_second_listed_by_identifier :
  (created_at routine_operation < created_at tick_operation)%Z /\
  score routine_operation = score tick_operation /\
  get_pending_operations id_ltb alice 50 redis_same_second
  = [tick_operation; routine_operation].
Proof. repeat split. Qed.

(** ** Retries and the failed list *)

Lemma parse_operations_perm l l' :
  Permutation l l' -> Permutation (parse_operations l) (parse_operations l').
Proof.
  induction 1 as [|x l l' _ IH|x y l|l l' l'' _ IH1 _ IH2]; simpl.
  - constructor.
  - destruct (from_dict x); [now constructor|exact IH].
  - destruct (from_dict x), (from_dict y);
      try apply perm_swap; reflexivity.
  - now transitivity (parse_operations l').
Qed.

Lemma parse_operations_length l :
  (length (parse_operations l) <= length l)%nat.
Proof.
  induction l as [|x l IH]; simpl; [lia|].
  destruct (from_dict x); simpl; lia.
Qed.

Lemma parse_operations_In o l :
  In o (parse_operations l) <-> exists m, In m l /\ from_dict m = Some o.
Proof.
  induction l as [|x l IH]; simpl.
  - split; [contradiction|now intros (m & [] & _)].
  - destruct (from_dict x) as [p|] eqn:E; simpl; rewrite ?IH; split.
    + intros [<-|(m & Hm & Hd)]; [exists x; auto|exists m; auto].
    + intros (m & [<-|Hm] & Hd); [left; congruence|right; exists m; auto].
    + intros (m & Hm & Hd). exists m; auto.
    + intros (m & [<-|Hm] & Hd); [congruence|exists m; auto].
Qed.

Lemma pending_all json_ltb uid limit r :
  (Z.of_nat (length (zset_of (queue_key uid) r)) <= limit)%Z ->
  Permutation (get_pending_operations json_ltb uid limit r)
              (parse_operations (map fst (zset_of (queue_key uid) r))).
Proof.
  intros H. unfold get_pending_operations, zrevrange.
  rewrite redis_range_all by (rewrite zrev_sort_length; lia).
  apply parse_operations_perm, Permutation_map, zrev_sort_perm.
Qed.

Lemma process_all_total geodesic operations n draws acc :
  total (process_all geodesic operations n draws acc) = total acc.
Proof.
  revert n acc. induction operations as [|o rest IH]; intros n acc; simpl;
    [reflexivity|].
  rewrite IH. destruct (success _); reflexivity.
Qed.

(** A failed attempt that uses up the retries writes to the failed list
    only: the sorted sets, and with them the pending members of the
    operation, stay as they are. *)
Lemma exhausted_operation_stays_pending geodesic operation dr db r :
  success (process_operation geodesic operation dr db r) = false ->
  (max_retries operation <= retry_count operation + 1)%Z ->
  zsets (redis_after (process_operation geodesic operation dr db r)) = zsets r.
Proof.
  unfold process_operation. destruct (dispatch _ _) as [handler|]; [|reflexivity].
  destruct (handler _ dr db) as [[|] db1]; simpl; [discriminate|].
  intros _ H. destruct (Z.leb_spec (max_retries operation)
                          (retry_count operation + 1)); [reflexivity|lia].
Qed.

(** A failed attempt never takes [retry_count] beyond [max_retries] when
    it was below before. *)
Lemma retry_count_bounded geodesic operation dr db r :
  (retry_count operation < max_retries operation)%Z ->
  (retry_count (operation_after (process_operation geodesic operation dr db r))
   <= max_retries
        (operation_after (process_operation geodesic operation dr db r)))%Z.
Proof.
  intros H. unfold process_operation.
  destruct (dispatch _ _) as [handler|]; simpl; [|lia].
  destruct (handler _ dr db) as [[|] db1]; simpl; [lia|].
  destruct (_ <=? _)%Z; simpl; lia.
Qed.

(** [retry_failed_operation] takes the operation off the failed list and
    puts it into the pending set with [retry_count] 0. *)
Lemma retry_moves_back_to_pending :
  let '(found, r) :=
    retry_failed_operation (op_id lost_operation) alice (redis_after attempt3) in
  found = true /\
  get_failed_operations alice 50 r = [] /\
  In (set_op_status (set_retry_count (operation_after attempt3) 0) "pending")
     (map fst (zset_of (queue_key alice) r)).
Proof. vm_compute. repeat split. do 3 right. left. reflexivity. Qed.

(** C8 at a failing input.  A check-in that cannot succeed is queued
    with [max_retries = 3] and attempted three times.  The third attempt
    leaves it on the failed list with [retry_count = 3], yet the pending
    set still holds it, in the three texts the queue wrote for it, so the
    next run of [process_user_queue] attempts it again, three times. *)
Theorem exhausted_operation_still_pending :
  success attempt1 = false /\ success attempt2 = false /\
  success attempt3 = false /\
  retry_count (operation_after attempt3) = 3%Z /\
  max_retries (operation_after attempt3) = 3%Z /\
  get_failed_operations alice 50 (redis_after attempt3)
  = [operation_after attempt3] /\
  map fst (zset_of (queue_key alice) (redis_after attempt3))
  = [lost_operation; operation_after attempt1; operation_after attempt2] /\
  forall json_ltb,
    In lost_operation
       (get_pending_operations json_ltb alice 50 (redis_after attempt3)) /\
    total (process_user_queue flat_geodesic json_ltb alice 10
             (fun _ => draws5) db_empty (redis_after attempt3)) = 3%Z.
Proof.
  do 7 (split; [vm_compute; reflexivity|]).
  intros json_ltb. split.
  - apply (Permutation_in _ (Permutation_sym
             (pending_all json_ltb alice 50 (redis_after attempt3) ltac:(vm_compute; discriminate)))).
    vm_compute. left. reflexivity.
  - unfold process_user_queue. rewrite process_all_total. cbn [total].
    rewrite (Permutation_length
               (pending_all json_ltb alice 10 (redis_after attempt3)
                  ltac:(vm_compute; discriminate))).
    vm_compute. reflexivity.
Qed.

(** ** Completing an operation *)

(** A successful attempt deletes the whole sorted set of the user. *)
Lemma success_clears_pending geodesic operation dr db r :
  success (process_operation geodesic operation dr db r) = true ->
  zsets (redis_after (process_operation geodesic operation dr db r))
  = delete (queue_key (user_id operation)) (zsets r).
Proof.
  unfold process_operation. destruct (dispatch _ _) as [handler|]; [|discriminate].
  destruct (handler _ dr db) as [[|] db1]; simpl; [reflexivity|].
  destruct (_ <=? _)%Z; discriminate.
Qed.

(** C9 at a failing input.  Alice's pending set holds the start of a
    session and a check-in.  The start is processed and succeeds;
    afterwards the pending set is empty, so the check-in has been removed
    along with it. *)
Theorem success_empties_the_pending_set :
  success first_processed = true /\
  forall json_ltb,
    get_pending_operations json_ltb alice 50 redis_two_pending
    = [queued_start; queued_follow_up] /\
    get_pending_operations json_ltb alice 50 (redis_after first_processed)
    = [].
Proof.
  split; [vm_compute; reflexivity|].
  intros json_ltb. split; vm_compute; reflexivity.
Qed.

(** * Further properties of the code *)

(** ** Location service *)

Lemma py_max_ge a b : (a <= py_max a b)%Q.
Proof. rewrite py_max_Qmax. apply Q.le_max_l. Qed.

Lemma py_max_mono a b c : (b <= c)%Q -> (py_max a b <= py_max a c)%Q.
Proof. intros H. rewrite !py_max_Qmax. apply Q.max_le_compat_l, H. Qed.

Lemma py_min_mono_l a b c : (a <= b)%Q -> (py_min a c <= py_min b c)%Q.
Proof. intros H. rewrite !py_min_Qmin. apply Q.min_le_compat_r, H. Qed.

Lemma py_min_mono_r a b c : (b <= c)%Q -> (py_min a b <= py_min a c)%Q.
Proof. intros H. rewrite !py_min_Qmin. apply Q.min_le_compat_l, H. Qed.

Lemma py_min_le_r a b : (py_min a b <= b)%Q.
Proof. rewrite py_min_Qmin. apply Q.le_min_r. Qed.

Lemma py_min_le_l a b : (py_min a b <= a)%Q.
Proof. rewrite py_min_Qmin. apply Q.le_min_l. Qed.

(** X1.  [_calculate_accuracy_confidence] raises [ZeroDivisionError]
    exactly on a radius of 0; on every other input, of whatever sign, it
    returns a confidence between 0 and 1. *)
Theorem confidence_total_and_bounded d r acc :
  match _calculate_accuracy_confidence d r acc with
  | Returned c => ~ (r == 0)%Q /\ (0 <= c <= 1)%Q
  | Raised e => e = ZeroDivisionError /\ (r == 0)%Q
  end.
Proof.
  unfold _calculate_accuracy_confidence.
  destruct (Qeq_bool r 0) eqn:E.
  - split; [reflexivity|]. now apply Qeq_bool_iff.
  - split.
    + intros H. apply Qeq_bool_iff in H. congruence.
    + split; [apply py_max_ge|].
      rewrite py_max_Qmax. apply Q.max_lub; [lra|apply py_min_le_l].
Qed.

(** The confidence for a radius that is not 0. *)
Lemma confidence_returned d r acc :
  ~ (r == 0)%Q ->
  _calculate_accuracy_confidence d r acc
  = Returned
      (py_max 0 (py_min 1
         (match acc with
          | Some a => (1 - py_min (d / r) 1) * py_max 0 (1 - a / min_accuracy_meters)
          | None => 1 - py_min (d / r) 1
          end)))%Q.
Proof.
  intros H. unfold _calculate_accuracy_confidence.
  destruct (Qeq_bool r 0) eqn:E; [apply Qeq_bool_iff in E; contradiction|].
  destruct acc; reflexivity.
Qed.

(** X2.  For a positive radius the confidence does not grow with the
    distance, and for any radius but 0 it does not grow with the reported
    accuracy radius. *)
Theorem confidence_antitone d1 d2 r a1 a2 acc c1 c2 c3 c4 :
  (0 < r)%Q -> (d1 <= d2)%Q -> (a1 <= a2)%Q ->
  _calculate_accuracy_confidence d1 r acc = Returned c1 ->
  _calculate_accuracy_confidence d2 r acc = Returned c2 ->
  _calculate_accuracy_confidence d1 r (Some a1) = Returned c3 ->
  _calculate_accuracy_confidence d1 r (Some a2) = Returned c4 ->
  (c2 <= c1)%Q /\ (c4 <= c3)%Q.
Proof.
  intros Hr Hd Ha.
  assert (Hr0 : ~ (r == 0)%Q) by lra.
  rewrite !(confidence_returned _ r _ Hr0).
  intros [= <-] [= <-] [= <-] [= <-].
  assert (Hdiv : (d1 / r <= d2 / r)%Q).
  { unfold Qdiv. apply Qmult_le_compat_r; [exact Hd|].
    apply Qlt_le_weak, Qinv_lt_0_compat, Hr. }
  assert (Hb : (1 - py_min (d2 / r) 1 <= 1 - py_min (d1 / r) 1)%Q).
  { pose proof (py_min_mono_l _ _ 1 Hdiv). lra. }
  assert (Hb0 : (0 <= 1 - py_min (d1 / r) 1)%Q).
  { pose proof (py_min_le_r (d1 / r) 1). lra. }
  split.
  - apply py_max_mono, py_min_mono_r.
    destruct acc as [a|]; [|exact Hb].
    apply Qmult_le_compat_r; [exact Hb|apply py_max_ge].
  - apply py_max_mono, py_min_mono_r.
    rewrite !(Qmult_comm (1 - py_min (d1 / r) 1)).
    apply Qmult_le_compat_r; [|exact Hb0].
    apply py_max_mono.
    assert ((a1 / min_accuracy_meters <= a2 / min_accuracy_meters)%Q).
    { unfold Qdiv. apply Qmult_le_compat_r; [exact Ha|].
      unfold min_accuracy_meters. vm_compute. discriminate. }
    lra.
Qed.

Lemma confidence_antitone_witness :
  exists c1 c2 c3 c4,
    _calculate_accuracy_confidence 10 100 (Some 5%Q) = Returned c1 /\
    _calculate_accuracy_confidence 50 100 (Some 5%Q) = Returned c2 /\
    _calculate_accuracy_confidence 10 100 (Some 20%Q) = Returned c3 /\
    _calculate_accuracy_confidence 10 100 (Some 400%Q) = Returned c4 /\
    (c2 <= c1)%Q /\ (c4 <= c3)%Q.
Proof.
  eexists _, _, _, _.
  split; [reflexivity|]. split; [reflexivity|].
  split; [reflexivity|]. split; [reflexivity|].
  apply (confidence_antitone 10 50 100 20 400 (Some 5%Q)).
  - reflexivity.
  - vm_compute. discriminate.
  - vm_compute. discriminate.
  - reflexivity.
  - reflexivity.
  - reflexivity.
  - reflexivity.
Defined.

Lemma effective_radius_value m :
  effective_radius m
  = if Qeq_bool (radius_meters m) 0 then default_radius_meters
    else radius_meters m.
Proof.
  unfold effective_radius.
  set (radius := if Qeq_bool (radius_meters m) 0 then default_radius_meters
                 else radius_meters m).
  destruct (Qltb max_radius_meters radius) eqn:L; [reflexivity|].
  unfold py_min. now rewrite L.
Qed.

Lemma effective_radius_nonzero m : Qeq_bool (effective_radius m) 0 = false.
Proof.
  rewrite effective_radius_value.
  destruct (Qeq_bool (radius_meters m) 0) eqn:E; [reflexivity|exact E].
Qed.

(** What [verify_location] answers once the meeting is found and geopy
    has returned a distance. *)
Lemma verify_location_found geodesic db m lat lng d acc :
  meetings_with_id (meeting_id_of m) db = [m] ->
  geodesic (meeting_lat m, meeting_lng m) (lat, lng) = Returned d ->
  exists c,
    _calculate_accuracy_confidence d (effective_radius m) acc = Returned c /\
    verify_location geodesic lat lng (meeting_id_of m) db acc
    = mkProximityResult (Qle_bool d (effective_radius m)) (Finite d)
        (Some (meeting_id_of m)) (Some (meeting_name m)) c.
Proof.
  intros Hm Hg. unfold verify_location.
  change (List.filter _ (meetings db)) with (meetings_with_id (meeting_id_of m) db).
  rewrite Hm. simpl. rewrite Hg.
  unfold _calculate_accuracy_confidence. rewrite effective_radius_nonzero.
  eexists. split; reflexivity.
Qed.

(** X3.  [verify_location] fails closed: it reports a location as within
    range only when exactly one meeting row has the identifier, geopy
    returned a distance, and that distance is at most the radius in use;
    the distance it then reports is that one.  With no such row, or with
    several, the answer is out of range, at infinite distance, with
    confidence 0. *)
Theorem verify_location_fails_closed geodesic db mid lat lng acc :
  (is_within_range (verify_location geodesic lat lng mid db acc) = true ->
   exists m d,
     meetings_with_id mid db = [m] /\
     geodesic (meeting_lat m, meeting_lng m) (lat, lng) = Returned d /\
     (d <= effective_radius m)%Q /\
     distance_meters (verify_location geodesic lat lng mid db acc) = Finite d)
  /\ ((forall m, meetings_with_id mid db <> [m]) ->
      verify_location geodesic lat lng mid db acc = fail_closed).
Proof.
  unfold verify_location.
  change (List.filter _ (meetings db)) with (meetings_with_id mid db).
  destruct (meetings_with_id mid db) as [|m [|m' t]]; simpl.
  - split; [discriminate|reflexivity].
  - split.
    + destruct (geodesic _ _) as [d|e] eqn:G; simpl; [|discriminate].
      destruct (_calculate_accuracy_confidence _ _ _); simpl; [|discriminate].
      intros H. exists m, d. split; [reflexivity|]. split; [exact G|].
      split; [now apply Qle_bool_iff|reflexivity].
    + intros H. now destruct (H m).
  - split; [discriminate|reflexivity].
Qed.

(** X4.  The radius in use is the meeting's own radius, however large;
    only a radius of 0 is replaced, by 100 m.  The maximum of 1000 m
    caps nothing. *)
Theorem radius_never_capped geodesic db m lat lng d acc :
  meetings_with_id (meeting_id_of m) db = [m] ->
  geodesic (meeting_lat m, meeting_lng m) (lat, lng) = Returned d ->
  is_within_range (verify_location geodesic lat lng (meeting_id_of m) db acc)
  = Qle_bool d (if Qeq_bool (radius_meters m) 0 then 100%Q
                else radius_meters m).
Proof.
  intros Hm Hg.
  destruct (verify_location_found geodesic db m lat lng d acc Hm Hg)
    as [c [_ ->]].
  simpl. now rewrite effective_radius_value.
Qed.

Lemma radius_never_capped_witness :
  is_within_range
    (verify_location flat_geodesic 41 (-74) (meeting_id_of arena) db_arena None)
  = Qle_bool arena_distance 6000.
Proof.
  apply (radius_never_capped flat_geodesic db_arena arena 41 (-74)
           arena_distance None).
  - reflexivity.
  - reflexivity.
Defined.

(** X5.  Every location that the request schema of the check-in and
    check-out endpoints lets through is valid for [is_location_valid];
    the converse fails, since [is_location_valid] takes a negative
    accuracy. *)
Theorem schema_implies_location_valid :
  (forall lat lng acc,
      SessionEventCreate_accepts lat lng acc = true ->
      is_location_valid lat lng acc = true)
  /\ is_location_valid 0 0 (Some (-1)%Q) = true
  /\ SessionEventCreate_accepts 0 0 (Some (-1)%Q) = false.
Proof.
  split; [|split; reflexivity].
  intros lat lng acc. unfold SessionEventCreate_accepts, is_location_valid.
  intros H.
  apply andb_true_iff in H as [H Hacc].
  apply andb_true_iff in H as [H H4].
  apply andb_true_iff in H as [H H3].
  apply andb_true_iff in H as [H1 H2].
  rewrite H1, H2, H3, H4. simpl.
  destruct acc as [a|]; [|reflexivity].
  apply andb_true_iff in Hacc as [_ Ha].
  unfold Qltb. now rewrite Ha.
Qed.

(** ** Session service *)

Lemma check_out_rejects geodesic sid loc notes dr db session :
  In session (sessions db) -> session_id_of session = sid ->
  status session <> CHECKED_IN ->
  check_out geodesic sid loc notes dr db = (None, db).
Proof.
  intros Hin Hid Hst. pose proof (sessions_with_id_In sid db session Hin Hid) as H.
  unfold check_out.
  change (List.filter _ (sessions db)) with (sessions_with_id sid db).
  destruct (sessions_with_id sid db) as [|x [|y t]]; simpl in *.
  - contradiction.
  - destruct H as [->|[]].
    destruct (status session); simpl; congruence.
  - reflexivity.
Qed.

(** X6.  [check_out] on a session that is not [CHECKED_IN], an [ACTIVE]
    one included, returns [None] and leaves sessions and events as they
    were. *)
Theorem check_out_needs_checked_in geodesic sid loc notes dr db session :
  In session (sessions db) -> session_id_of session = sid ->
  status session <> CHECKED_IN ->
  check_out geodesic sid loc notes dr db = (None, db).
Proof. apply check_out_rejects. Qed.

Lemma db_started_sessions : sessions db_started = [started_session].
Proof. reflexivity. Qed.

Lemma check_out_needs_checked_in_witness :
  check_out flat_geodesic (uuid_a draws1) at_hall None draws3 db_started
  = (None, db_started).
Proof.
  apply (check_out_needs_checked_in flat_geodesic (uuid_a draws1) at_hall
           None draws3 db_started started_session).
  - rewrite db_started_sessions. simpl. left. reflexivity.
  - reflexivity.
  - simpl. discriminate.
Defined.

(** X7.  [check_out] never completes a session.  On every input it
    returns [None] and leaves every session row and every meeting as it
    was: a session that is [CHECKED_IN] stays so, within range or not,
    since the setter of [check_out_time] raises before the commit. *)
Theorem check_out_never_completes geodesic sid loc notes dr db :
  fst (check_out geodesic sid loc notes dr db) = None /\
  sessions (snd (check_out geodesic sid loc notes dr db)) = sessions db /\
  meetings (snd (check_out geodesic sid loc notes dr db)) = meetings db.
Proof.
  unfold check_out.
  destruct (scalar_one_or_none _) as [[session|]|e]; auto.
  destruct (negb (status_eqb (status session) CHECKED_IN)); auto.
  cbv zeta. destruct (negb _); auto.
  unfold create_session_event. destruct (_ && _); auto.
Qed.

(** X8.  [end_session] never ends a session.  On every input it returns
    [False] and leaves the database as it was: without exactly one row
    of that identifier there is nothing to end, and with one the setter
    of [check_out_time] raises before anything is committed. *)
Theorem end_session_never_ends sid reason dr db :
  end_session sid reason dr db = (false, db).
Proof.
  unfold end_session.
  destruct (scalar_one_or_none _) as [[session|]|e]; reflexivity.
Qed.


Lemma filter_and_nil {A : Type} (p q : A -> bool) (l : list A) :
  List.filter p l = [] -> List.filter (fun x => p x && q x) l = [].
Proof.
  induction l as [|x l IH]; simpl; [reflexivity|].
  destruct (p x); simpl; [discriminate|exact IH].
Qed.

(** X9.  [create_session] for a meeting that does not exist, or that
    exists but is not active, raises a [ValueError] that names the case
    and leaves the database as it was; the participant's live session is
    not ended. *)
Theorem create_session_rejects_meeting cid mid notes dr db :
  (meetings_with_id mid db = [] ->
   create_session cid mid notes dr db
   = (Raised (ValueError ("Meeting " ++ mid ++ " not found")), db))
  /\ (forall m,
        meetings_with_id mid db = [m] -> meeting_is_active m = false ->
        create_session cid mid notes dr db
        = (Raised (ValueError ("Meeting " ++ mid ++ " is not active")), db)).
Proof.
  unfold create_session.
  change (List.filter (fun m => String.eqb (meeting_id_of m) mid) (meetings db))
    with (meetings_with_id mid db).
  split.
  - intros H. rewrite H.
    rewrite (filter_and_nil (fun m => String.eqb (meeting_id_of m) mid)
               meeting_is_active (meetings db) H).
    reflexivity.
  - intros m H Hoff. rewrite H.
    assert (Hnone : List.filter
                      (fun m => String.eqb (meeting_id_of m) mid
                                && meeting_is_active m) (meetings db) = []).
    { unfold meetings_with_id in H.
      induction (meetings db) as [|x l IH]; simpl in *; [reflexivity|].
      destruct (String.eqb (meeting_id_of x) mid); simpl.
      - injection H as -> H. rewrite Hoff.
        now apply (filter_and_nil (fun m => String.eqb (meeting_id_of m) mid)).
      - auto. }
    rewrite Hnone. reflexivity.
Qed.

(** X12.  [get_active_session] returns a session exactly when it is the
    participant's only live session; with none, and also with several,
    it returns [None]. *)
Theorem get_active_session_only_live cid db :
  (forall s, get_active_session cid db = Some s <-> live_sessions cid db = [s])
  /\ ((2 <= length (live_sessions cid db))%nat ->
      get_active_session cid db = None).
Proof.
  unfold get_active_session.
  change (List.filter _ (sessions db)) with (live_sessions cid db).
  destruct (live_sessions cid db) as [|y [|z t]]; simpl; split;
    try (intros s; split; congruence); try (intros; reflexivity); try lia.
Qed.

(** ** What every core operation keeps *)

Lemma events_extended_refl n db : events_extended n db db.
Proof. split; [reflexivity|]. exists []. split; [now rewrite app_nil_r|simpl; lia]. Qed.

Lemma sessions_advanced_refl db : sessions_advanced db db.
Proof.
  exists (fun r => r), []. rewrite map_id, app_nil_r.
  split; [reflexivity|]. split; [simpl; lia|].
  intros r _. split; [reflexivity|now left].
Qed.

Lemma update_session_advanced s db :
  (forall r, In r (sessions db) -> session_id_of r = session_id_of s ->
             status_move (status r) (status s)) ->
  forall r, In r (sessions db) ->
    session_id_of (if String.eqb (session_id_of r) (session_id_of s)
                   then s else r) = session_id_of r /\
    status_move (status r)
      (status (if String.eqb (session_id_of r) (session_id_of s)
               then s else r)).
Proof.
  intros H r Hr.
  destruct (String.eqb (session_id_of r) (session_id_of s)) eqn:E.
  - apply String.eqb_eq in E. split; [now symmetry|now apply H].
  - split; [reflexivity|now left].
Qed.

Ltac same_events :=
  split; [reflexivity|];
  exists []; split; [simpl; now rewrite app_nil_r|simpl; lia].

Section Kept.

Variable geodesic : Q * Q -> Q * Q -> outcome Q.

Lemma add_event_extended e db : events_extended 2 db (add_event e db).
Proof.
  split; [reflexivity|]. exists [e]. split; [reflexivity|simpl; lia].
Qed.

Lemma check_in_extended sid loc notes dr db :
  events_extended 2 db (snd (check_in geodesic sid loc notes dr db)).
Proof.
  destruct (check_in_outcomes geodesic sid loc notes dr db) as [->|[e ->]].
  - apply events_extended_refl.
  - apply add_event_extended.
Qed.

Lemma check_out_extended sid loc notes dr db :
  events_extended 2 db (snd (check_out geodesic sid loc notes dr db)).
Proof.
  destruct (check_out_outcomes geodesic sid loc notes dr db) as [->|[e ->]].
  - apply events_extended_refl.
  - apply add_event_extended.
Qed.

Lemma end_session_extended sid reason dr db :
  events_extended 2 db (snd (end_session sid reason dr db)).
Proof. rewrite end_session_outcome. apply events_extended_refl. Qed.

Lemma create_session_extended cid mid notes dr db :
  events_extended 2 db (snd (create_session cid mid notes dr db)).
Proof.
  unfold create_session.
  destruct (scalar_one_or_none _) as [[meeting|]|e]; simpl.
  - destruct (get_active_session cid db); same_events.
  - destruct (scalar_one_or_none _) as [[?|]|?]; apply events_extended_refl.
  - apply events_extended_refl.
Qed.

Lemma create_general_session_extended cid notes dr db :
  events_extended 2 db (snd (create_general_session cid notes dr db)).
Proof.
  unfold create_general_session.
  destruct (get_active_session cid db); same_events.
Qed.

(** X10.  No core operation removes, reorders or rewrites a stored
    event, or touches a meeting: after [create_session],
    [create_general_session], [check_in], [check_out] or [end_session]
    the old events are the leading events of the new list, which has two
    more at most. *)
Theorem events_are_append_only db db' :
  core_step geodesic db db' -> events_extended 2 db db'.
Proof.
  intros [].
  - apply create_session_extended.
  - apply create_general_session_extended.
  - apply check_in_extended.
  - apply check_out_extended.
  - apply end_session_extended.
Qed.

End Kept.

Lemma events_are_append_only_witness :
  events_extended 2 db_started db_attempted.
Proof.
  apply (events_are_append_only flat_geodesic db_started db_attempted).
  apply step_check_in.
Defined.

Lemma status_move_ended a : status_move a ENDED.
Proof. do 3 right. reflexivity. Qed.

Section Moves.

Variable geodesic : Q * Q -> Q * Q -> outcome Q.

Lemma create_session_advanced cid mid notes dr db :
  sessions_advanced db (snd (create_session cid mid notes dr db)).
Proof.
  unfold create_session.
  destruct (scalar_one_or_none _) as [[meeting|]|e]; simpl.
  - destruct (get_active_session cid db) as [existing|].
    + set (s := set_is_complete (set_status existing ENDED) true).
      exists (fun r => if String.eqb (session_id_of r) (session_id_of s)
                       then s else r),
             [mkSession (uuid_a dr) cid (Some mid)
                (meeting_name meeting) (meeting_address meeting)
                (meeting_lat meeting) (meeting_lng meeting)
                notes ACTIVE false].
      split; [reflexivity|]. split; [simpl; lia|].
      apply update_session_advanced. intros r _ _. apply status_move_ended.
    + exists (fun r => r), [mkSession (uuid_a dr) cid (Some mid)
                              (meeting_name meeting) (meeting_address meeting)
                              (meeting_lat meeting) (meeting_lng meeting)
                              notes ACTIVE false].
      simpl. rewrite map_id. split; [reflexivity|]. split; [lia|].
      intros r _. split; [reflexivity|now left].
  - destruct (scalar_one_or_none _) as [[?|]|?]; apply sessions_advanced_refl.
  - apply sessions_advanced_refl.
Qed.

Lemma create_general_session_advanced cid notes dr db :
  sessions_advanced db (snd (create_general_session cid notes dr db)).
Proof.
  unfold create_general_session.
  destruct (get_active_session cid db) as [existing|]; simpl.
  - apply sessions_advanced_refl.
  - eexists (fun r => r), [_]. simpl. rewrite map_id.
    split; [reflexivity|]. split; [lia|].
    intros r _. split; [reflexivity|now left].
Qed.

Lemma sessions_advanced_same db db' :
  sessions db' = sessions db -> sessions_advanced db db'.
Proof.
  intros E. destruct (sessions_advanced_refl db) as (f & added & H).
  exists f, added. now rewrite E.
Qed.

Lemma check_in_advanced sid loc notes dr db :
  sessions_advanced db (snd (check_in geodesic sid loc notes dr db)).
Proof.
  destruct (check_in_outcomes geodesic sid loc notes dr db) as [->|[e ->]];
    now apply sessions_advanced_same.
Qed.

Lemma check_out_advanced sid loc notes dr db :
  sessions_advanced db (snd (check_out geodesic sid loc notes dr db)).
Proof.
  destruct (check_out_outcomes geodesic sid loc notes dr db) as [->|[e ->]];
    now apply sessions_advanced_same.
Qed.

Lemma end_session_advanced sid reason dr db :
  sessions_advanced db (snd (end_session sid reason dr db)).
Proof. rewrite end_session_outcome. apply sessions_advanced_refl. Qed.

(** X11.  No core operation deletes a session row or changes its
    identifier, and it adds one row at most; a status only moves from
    [ACTIVE] to [CHECKED_IN], from [CHECKED_IN] to [COMPLETED], or to
    [ENDED], so a session that is [COMPLETED] or [ENDED] is never live
    again. *)
Theorem sessions_only_move_forward db db' :
  core_step geodesic db db' ->
  sessions_advanced db db' /\
  (length (sessions db) <= length (sessions db'))%nat.
Proof.
  intros Hstep.
  assert (H : sessions_advanced db db').
  { destruct Hstep.
    - apply create_session_advanced.
    - apply create_general_session_advanced.
    - apply check_in_advanced.
    - apply check_out_advanced.
    - apply end_session_advanced. }
  split; [exact H|].
  destruct H as (f & added & -> & _).
  rewrite length_app, length_map. lia.
Qed.

End Moves.

Lemma sessions_only_move_forward_witness :
  sessions_advanced db_checked_in db_restarted /\
  (length (sessions db_checked_in) <= length (sessions db_restarted))%nat.
Proof.
  apply (sessions_only_move_forward flat_geodesic db_checked_in db_restarted).
  apply step_create_session.
Defined.

(** ** Check-in and check-out of single sessions *)

(** X13.  A general session, which has no meeting, can be neither
    checked in nor checked out: both calls look for the meeting whose
    identifier is the text [None], and unless such a row exists they
    return [None] and change nothing. *)
Theorem general_session_cannot_check_in geodesic sid loc notes dr db session :
  sessions_with_id sid db = [session] -> meeting_id session = None ->
  meetings_with_id "None" db = [] ->
  check_in geodesic sid loc notes dr db = (None, db) /\
  check_out geodesic sid loc notes dr db = (None, db).
Proof.
  intros Hs Hm Hnone. unfold check_in, check_out.
  change (List.filter (fun s => String.eqb (session_id_of s) sid) (sessions db))
    with (sessions_with_id sid db).
  rewrite Hs. simpl. rewrite Hm. simpl. unfold verify_location.
  change (List.filter (fun m => String.eqb (meeting_id_of m) "None") (meetings db))
    with (meetings_with_id "None" db).
  rewrite Hnone. simpl.
  split; destruct (status session); reflexivity.
Qed.

Lemma general_session_cannot_check_in_witness :
  check_in flat_geodesic (uuid_a draws1) at_hall None draws2 db_general
  = (None, db_general) /\
  check_out flat_geodesic (uuid_a draws1) at_hall None draws2 db_general
  = (None, db_general).
Proof.
  apply (general_session_cannot_check_in flat_geodesic (uuid_a draws1) at_hall
           None draws2 db_general general_session).
  - reflexivity.
  - reflexivity.
  - reflexivity.
Defined.

Lemma create_session_statuses cid mid notes dr db :
  (forall s, In s (sessions db) -> status s = ACTIVE \/ status s = ENDED) ->
  forall s, In s (sessions (snd (create_session cid mid notes dr db))) ->
            status s = ACTIVE \/ status s = ENDED.
Proof.
  intros H s. unfold create_session.
  destruct (scalar_one_or_none _) as [[meeting|]|e]; simpl.
  - intros Hin. apply in_app_or in Hin as [Hin|[<-|[]]]; [|now left].
    destruct (get_active_session cid db) as [existing|]; [|now apply H].
    simpl in Hin. apply in_map_iff in Hin as (r & <- & Hr).
    destruct (String.eqb _ _); [now right|now apply H].
  - destruct (scalar_one_or_none _) as [[?|]|?]; apply H.
  - apply H.
Qed.

Lemma core_step_statuses geodesic db db' :
  core_step geodesic db db' ->
  (forall s, In s (sessions db) -> status s = ACTIVE \/ status s = ENDED) ->
  forall s, In s (sessions db') -> status s = ACTIVE \/ status s = ENDED.
Proof.
  intros [cid mid notes dr d|cid notes dr d|sid loc notes dr d
          |sid loc notes dr d|sid reason dr d] H s.
  - now apply create_session_statuses.
  - unfold create_general_session.
    destruct (get_active_session cid d); simpl; [apply H|].
    intros Hin. apply in_app_or in Hin as [Hin|[<-|[]]];
      [now apply H|now left].
  - destruct (check_in_outcomes geodesic sid loc notes dr d) as [->|[e ->]];
      apply H.
  - destruct (check_out_outcomes geodesic sid loc notes dr d) as [->|[e ->]];
      apply H.
  - rewrite end_session_outcome. apply H.
Qed.

(** X14.  [check_in] never checks a session in.  On every input it
    returns [None] and leaves every session row and every meeting as it
    was, since the setter of [check_in_time] raises before the commit.
    So in every state that the five core operations reach from a
    database without sessions each session is [ACTIVE] or [ENDED]: none
    is ever [CHECKED_IN] or [COMPLETED]. *)
Theorem check_in_never_checks_in geodesic db :
  reachable geodesic db ->
  (forall sid loc notes dr,
      fst (check_in geodesic sid loc notes dr db) = None /\
      sessions (snd (check_in geodesic sid loc notes dr db)) = sessions db /\
      meetings (snd (check_in geodesic sid loc notes dr db)) = meetings db) /\
  (forall session,
      In session (sessions db) ->
      status session = ACTIVE \/ status session = ENDED).
Proof.
  intros Hreach. split.
  - intros sid loc notes dr.
    destruct (check_in_outcomes geodesic sid loc notes dr db) as [->|[e ->]];
      repeat split.
  - induction Hreach as [ms|db db' _ IH Hstep].
    + intros session [].
    + exact (core_step_statuses geodesic db db' Hstep IH).
Qed.

Lemma check_in_never_checks_in_witness :
  fst (check_in flat_geodesic (uuid_a draws1) at_hall None draws3 db_attempted)
  = None /\
  sessions db_attempted = [started_session] /\
  forall session,
    In session (sessions db_attempted) ->
    status session = ACTIVE \/ status session = ENDED.
Proof.
  assert (R : reachable flat_geodesic db_attempted).
  { apply (reachable_step flat_geodesic db_started).
    - apply (reachable_step flat_geodesic db_empty).
      + apply reachable_initial.
      + apply step_create_session.
    - apply step_check_in. }
  destruct (check_in_never_checks_in flat_geodesic db_attempted R) as [H1 H2].
  split; [exact (proj1 (H1 (uuid_a draws1) at_hall None draws3))|].
  split; [reflexivity|exact H2].
Defined.

(** ** The Redis store *)

Lemma lookup_store {A : Type} (key k : string) (l : list A)
    (m : gmap string (list A)) :
  store key l m !! k
  = if decide (k = key)
    then match l with [] => None | _ :: _ => Some l end
    else m !! k.
Proof.
  unfold store. destruct (decide (k = key)) as [->|Hne].
  - destruct l; [apply lookup_delete_eq|apply lookup_insert_eq].
  - destruct l; [now apply lookup_delete_ne|now apply lookup_insert_ne].
Qed.

Lemma default_store {A : Type} (key : string) (l : list A)
    (m : gmap string (list A)) :
  default [] (store key l m !! key) = l.
Proof.
  rewrite lookup_store. destruct (decide (key = key)); [|congruence].
  now destruct l.
Qed.

Lemma queue_key_inj a b : queue_key a = queue_key b -> a = b.
Proof. unfold queue_key. simpl. intros H. now inversion H. Qed.

Lemma failed_key_inj a b : failed_key a = failed_key b -> a = b.
Proof. unfold failed_key. simpl. intros H. now inversion H. Qed.

Lemma zset_of_zadd key member s r :
  zset_of key (zadd key member s r) = zadd_entries member s (zset_of key r).
Proof. unfold zset_of at 1, zadd. cbn [zsets]. apply default_store. Qed.

Lemma zset_of_zadd_ne key key' member s r :
  key' <> key -> zset_of key' (zadd key member s r) = zset_of key' r.
Proof.
  intros H. unfold zset_of, zadd. cbn [zsets].
  rewrite (lookup_store (A := OfflineOperation * Z)).
  now destruct (decide (key' = key)).
Qed.

Lemma zadd_reply_cases key member s r :
  zadd_reply key member s r = Returned (zadd key member s r)
  \/ exists e, zadd_reply key member s r = Raised e.
Proof. unfold zadd_reply. destruct (double_finite s); eauto. Qed.

Lemma _update_operation_cases operation r :
  _update_operation operation r
  = zadd (queue_key (user_id operation)) operation (score operation) r
  \/ _update_operation operation r = r.
Proof.
  unfold _update_operation.
  destruct (zadd_reply_cases (queue_key (user_id operation)) operation
              (score operation) r) as [->|[e ->]]; auto.
Qed.

Lemma list_of_lpush key member r :
  list_of key (lpush key member r) = member :: list_of key r.
Proof. unfold list_of at 1, lpush. cbn [lists]. apply default_store. Qed.

Lemma list_of_lpush_ne key key' member r :
  key' <> key -> list_of key' (lpush key member r) = list_of key' r.
Proof.
  intros H. unfold list_of, lpush. cbn [lists]. rewrite lookup_store.
  now destruct (decide (key' = key)).
Qed.

Lemma zadd_entries_In member s l : In (member, s) (zadd_entries member s l).
Proof.
  induction l as [|[m s0] l IH]; simpl; [now left|].
  destruct (decide (m = member)) as [->|]; [now left|now right].
Qed.

Lemma In_firstn {A : Type} (n : nat) (l : list A) x :
  In x (firstn n l) -> In x l.
Proof.
  intros H. rewrite <- (firstn_skipn n l). apply in_or_app. now left.
Qed.

Lemma In_skipn {A : Type} (n : nat) (l : list A) x :
  In x (skipn n l) -> In x l.
Proof.
  intros H. rewrite <- (firstn_skipn n l). apply in_or_app. now right.
Qed.

Lemma redis_range_In {A : Type} (l : list A) start stop x :
  In x (redis_range l start stop) -> In x l.
Proof.
  unfold redis_range. cbv zeta.
  destruct (_ || _); [contradiction|].
  intros H. apply In_firstn in H. now apply In_skipn in H.
Qed.

Lemma redis_range_length {A : Type} (l : list A) stop :
  (0 <= stop)%Z ->
  (Z.of_nat (length (redis_range l 0 stop)) <= stop + 1)%Z.
Proof.
  intros H. unfold redis_range. cbv zeta.
  replace (if (0 <? 0)%Z then (Z.of_nat (length l) + 0)%Z else 0%Z)
    with 0%Z by reflexivity.
  replace (if (0 <? 0)%Z then 0%Z else 0%Z) with 0%Z by reflexivity.
  destruct (Z.ltb_spec stop 0) as [E|E]; [lia|].
  destruct (_ || _); [simpl; lia|].
  rewrite length_firstn.
  destruct (Z.leb_spec (Z.of_nat (length l)) stop); lia.
Qed.

Lemma redis_range_whole {A : Type} (l : list A) : redis_range l 0 (-1) = l.
Proof.
  unfold redis_range. cbv zeta.
  replace (if (0 <? 0)%Z then (Z.of_nat (length l) + 0)%Z else 0%Z)
    with 0%Z by reflexivity.
  replace (if (0 <? 0)%Z then 0%Z else 0%Z) with 0%Z by reflexivity.
  replace (-1 <? 0)%Z with true by reflexivity. cbv iota.
  set (n := Z.of_nat (length l)).
  destruct l as [|x l].
  { destruct (_ || _); [reflexivity|]. now rewrite skipn_nil, firstn_nil. }
  assert (Hn : (0 < n)%Z) by (unfold n; simpl; lia).
  destruct (Z.ltb_spec (n + -1) 0) as [E1|E1]; [lia|].
  destruct (Z.leb_spec n 0) as [E2|E2]; [lia|]. simpl orb. cbv iota.
  destruct (Z.leb_spec n (n + -1)) as [E3|E3]; [lia|].
  replace (n + -1 - 0 + 1)%Z with n by lia.
  unfold n. rewrite Nat2Z.id. simpl. now rewrite firstn_all.
Qed.

(** ** Queueing and listing *)

Lemma from_dict_canonical member :
  parse_uuid (user_id member) = Some (user_id member) ->
  from_dict member = Some member.
Proof. unfold from_dict. intros ->. now destruct member. Qed.

(** X16.  For a user whose identifier is the canonical text of a UUID
    (as [str(uuid4())] gives it) and a score that Redis takes,
    [queue_operation] returns the identifier it drew and puts the
    operation into the user's pending set with [retry_count = 0],
    [max_retries = 3], status ["pending"] and its own score; no failed
    list changes, and the operation is listed by
    [get_pending_operations] whenever the limit covers the set.  With a
    score that is beyond the doubles the call raises and changes
    nothing. *)
Theorem queued_operation_is_pending json_ltb kind payload uid prio dr r limit :
  let operation :=
    mkOfflineOperation (uuid_a dr) kind payload uid prio 3 0 (utcnow dr)
      None "pending" in
  let r' := snd (queue_operation kind payload uid prio dr r) in
  parse_uuid uid = Some uid ->
  (double_finite (score operation) = true ->
   fst (queue_operation kind payload uid prio dr r) = Returned (uuid_a dr) /\
   In (operation, score operation) (zset_of (queue_key uid) r') /\
   lists r' = lists r /\
   ((Z.of_nat (length (zset_of (queue_key uid) r')) <= limit)%Z ->
    In operation (get_pending_operations json_ltb uid limit r')))
  /\ (double_finite (score operation) = false ->
      queue_operation kind payload uid prio dr r
      = (Raised (ResponseError "value is not a valid float"), r)).
Proof.
  intros operation r' Huid. subst r'. unfold queue_operation, zadd_reply.
  fold operation. split; intros ->; [|reflexivity].
  cbn [fst snd op_id operation].
  split; [reflexivity|]. split; [|split; [reflexivity|]].
  - rewrite zset_of_zadd. apply zadd_entries_In.
  - intros Hlen.
    apply (Permutation_in _ (Permutation_sym (pending_all json_ltb uid limit _ Hlen))).
    apply parse_operations_In. exists operation. split.
    + apply (in_map fst _ (operation, score operation)).
      rewrite zset_of_zadd. apply zadd_entries_In.
    + now apply from_dict_canonical.
Qed.

Lemma queued_operation_is_pending_witness :
  fst (queue_operation "check_in" check_in_payload alice 1 draws3 redis_empty)
  = Returned (uuid_a draws3) /\
  In queued_check_in (get_pending_operations id_ltb alice 50 redis_check_in).
Proof.
  destruct (queued_operation_is_pending id_ltb "check_in" check_in_payload
              alice 1 draws3 redis_empty 50 eq_refl) as [H _].
  destruct (H eq_refl) as (H1 & _ & _ & H4).
  split; [exact H1|]. apply H4. vm_compute. discriminate.
Defined.

Lemma process_all_counts geodesic operations n draws acc :
  let run := process_all geodesic operations n draws acc in
  (processed run + failed run
   = processed acc + failed acc + Z.of_nat (length operations))%Z.
Proof.
  revert n acc. induction operations as [|o rest IH]; intros n acc; simpl;
    [lia|].
  rewrite IH. destruct (success _); simpl; lia.
Qed.

(** X17.  [get_pending_operations] returns at most [limit] operations
    for a limit of 1 or more, but for a limit of 0 it goes through the
    whole pending set, as does [get_failed_operations] with the failed
    list: the stop index [limit - 1] is then -1, the last member.  Both
    return every member that [from_dict] reads, so [process_user_queue]
    with [max_operations = 0] takes on every such pending operation. *)
Theorem limit_zero_lists_everything geodesic json_ltb uid limit draws db r :
  ((1 <= limit)%Z ->
   (Z.of_nat (length (get_pending_operations json_ltb uid limit r)) <= limit)%Z
   /\ (Z.of_nat (length (get_failed_operations uid limit r)) <= limit)%Z)
  /\ Permutation (get_pending_operations json_ltb uid 0 r)
                 (parse_operations (map fst (zset_of (queue_key uid) r)))
  /\ get_failed_operations uid 0 r
     = parse_operations (list_of (failed_key uid) r)
  /\ total (process_user_queue geodesic json_ltb uid 0 draws db r)
     = Z.of_nat (length (parse_operations
                           (map fst (zset_of (queue_key uid) r)))).
Proof.
  assert (Hall : Permutation (get_pending_operations json_ltb uid 0 r)
                   (parse_operations (map fst (zset_of (queue_key uid) r)))).
  { unfold get_pending_operations, zrevrange. simpl (0 - 1)%Z.
    rewrite redis_range_whole.
    apply parse_operations_perm, Permutation_map, zrev_sort_perm. }
  split; [|split; [exact Hall|split]].
  - intros Hl. split.
    + unfold get_pending_operations, zrevrange.
      pose proof (parse_operations_length
                    (map fst (redis_range
                      (zrev_sort json_ltb (zset_of (queue_key uid) r)) 0
                      (limit - 1)))) as Hp.
      rewrite length_map in Hp.
      pose proof (redis_range_length
                    (zrev_sort json_ltb (zset_of (queue_key uid) r))
                    (limit - 1) ltac:(lia)). lia.
    + unfold get_failed_operations.
      pose proof (parse_operations_length
                    (redis_range (list_of (failed_key uid) r) 0 (limit - 1)))
        as Hp.
      pose proof (redis_range_length (list_of (failed_key uid) r)
                    (limit - 1) ltac:(lia)). lia.
  - unfold get_failed_operations. simpl (0 - 1)%Z.
    now rewrite redis_range_whole.
  - unfold process_user_queue. rewrite process_all_total. cbn [total].
    now rewrite (Permutation_length Hall).
Qed.

(** X21.  [process_user_queue] counts every operation it listed once:
    [processed + failed = total], and [total] is the number of
    operations [get_pending_operations] returned for [max_operations];
    with nothing pending it returns three zeros and changes neither the
    database nor Redis. *)
Theorem process_user_queue_counts geodesic json_ltb uid max_operations draws db r :
  let run :=
    process_user_queue geodesic json_ltb uid max_operations draws db r in
  (processed run + failed run = total run)%Z /\
  total run
  = Z.of_nat (length (get_pending_operations json_ltb uid max_operations r)) /\
  (zset_of (queue_key uid) r = [] -> run = mkQueueRun 0 0 0 db r).
Proof.
  intros run. subst run. unfold process_user_queue.
  rewrite process_all_total. cbn [total].
  pose proof (process_all_counts geodesic
                (get_pending_operations json_ltb uid max_operations r) 0 draws
                (mkQueueRun 0 0
                   (Z.of_nat (length (get_pending_operations json_ltb uid
                                        max_operations r))) db r)) as H.
  cbv zeta in H. cbn [processed failed] in H.
  split; [lia|]. split; [reflexivity|].
  intros Hempty. unfold get_pending_operations, zrevrange. rewrite Hempty.
  assert (Hnil : redis_range (zrev_sort json_ltb []) 0 (max_operations - 1) = []).
  { simpl zrev_sort. destruct (redis_range _ _ _) as [|x l] eqn:E; [reflexivity|].
    assert (Hin : In x (redis_range (@nil (OfflineOperation * Z)) 0
                          (max_operations - 1))) by (rewrite E; now left).
    now apply redis_range_In in Hin. }
  rewrite Hnil. reflexivity.
Qed.

(** ** Processing one operation *)

(** X19.  An operation whose type is none of [check_in], [check_out],
    [create_session] and [end_session] is never worked off: every
    attempt returns [False] and changes neither the database nor Redis,
    so the operation stays pending with its [retry_count] and never
    reaches the failed list. *)
Theorem unknown_operation_type_stays_pending geodesic operation dr db r :
  operation_type operation <> "check_in" ->
  operation_type operation <> "check_out" ->
  operation_type operation <> "create_session" ->
  operation_type operation <> "end_session" ->
  let p := process_operation geodesic operation dr db r in
  success p = false /\ db_after p = db /\ redis_after p = r /\
  retry_count (operation_after p) = retry_count operation.
Proof.
  intros H1 H2 H3 H4 p. subst p. unfold process_operation, dispatch.
  cbn [operation_type set_attempt].
  apply String.eqb_neq in H1, H2, H3, H4. rewrite H1, H2, H3, H4.
  repeat split.
Qed.

Lemma unknown_operation_type_stays_pending_witness :
  let p := process_operation flat_geodesic sync_operation draws2 db_empty
             redis_sync in
  success p = false /\ db_after p = db_empty /\ redis_after p = redis_sync /\
  retry_count (operation_after p) = retry_count sync_operation.
Proof.
  apply (unknown_operation_type_stays_pending flat_geodesic sync_operation
           draws2 db_empty redis_sync); discriminate.
Defined.

Lemma process_operation_failed geodesic operation dr db r handler db1 :
  dispatch geodesic (set_attempt operation "processing" (Some (utcnow dr)))
  = Some handler ->
  handler (set_attempt operation "processing" (Some (utcnow dr))) dr db
  = (false, db1) ->
  let after :=
    set_op_status
      (set_retry_count
         (set_attempt operation "processing" (Some (utcnow dr)))
         (retry_count operation + 1))
      (if (max_retries operation <=? retry_count operation + 1)%Z
       then "failed" else "pending") in
  process_operation geodesic operation dr db r
  = mkProcessed false after db1
      (if (max_retries operation <=? retry_count operation + 1)%Z
       then _move_to_failed after r else _update_operation after r).
Proof.
  intros Hd Hh. unfold process_operation. rewrite Hd, Hh.
  cbn [retry_count max_retries set_attempt set_retry_count].
  destruct (max_retries operation <=? retry_count operation + 1)%Z; reflexivity.
Qed.

(** X27.  A queued check-in or check-out whose payload lacks the
    latitude, the longitude or the session identifier is never applied:
    the database stays as it is, the attempt counts as a failure and
    uses up one retry. *)
Theorem malformed_payload_uses_a_retry geodesic operation dr db r :
  operation_type operation = "check_in"
  \/ operation_type operation = "check_out" ->
  location_of (data operation) = None
  \/ data_session_id (data operation) = None ->
  let p := process_operation geodesic operation dr db r in
  success p = false /\ db_after p = db /\
  retry_count (operation_after p) = (retry_count operation + 1)%Z.
Proof.
  intros Hty Hbad p. subst p.
  set (o := set_attempt operation "processing" (Some (utcnow dr))).
  assert (Hh : exists handler,
             dispatch geodesic o = Some handler /\ handler o dr db = (false, db)).
  { unfold dispatch. cbn [operation_type o set_attempt].
    destruct Hty as [-> | ->]; simpl.
    - exists (_process_check_in geodesic). split; [reflexivity|].
      unfold _process_check_in. cbn [data o set_attempt].
      destruct Hbad as [-> | ->]; [reflexivity|].
      now destruct (location_of (data operation)).
    - exists (_process_check_out geodesic). split; [reflexivity|].
      unfold _process_check_out. cbn [data o set_attempt].
      destruct Hbad as [-> | ->]; [reflexivity|].
      now destruct (location_of (data operation)). }
  destruct Hh as (handler & Hd & Hh).
  rewrite (process_operation_failed geodesic operation dr db r handler db Hd Hh).
  repeat split.
Qed.

Lemma malformed_payload_uses_a_retry_witness :
  let p := process_operation flat_geodesic partial_operation draws2 db_started
             redis_empty in
  success p = false /\ db_after p = db_started /\
  retry_count (operation_after p) = 1%Z.
Proof.
  apply (malformed_payload_uses_a_retry flat_geodesic partial_operation draws2
           db_started redis_empty).
  - left. reflexivity.
  - left. reflexivity.
Defined.

(** ** The failed list *)

Lemma remove_first_length member l :
  In member l -> S (length (remove_first member l)) = length l.
Proof.
  induction l as [|x l IH]; simpl; [contradiction|].
  intros H. destruct (decide (x = member)) as [->|Hne]; [reflexivity|].
  destruct H as [H|H]; [contradiction|]. simpl. now rewrite IH.
Qed.

Lemma find_none_id operation_id (l : list OfflineOperation) :
  (forall o, In o l -> op_id o <> operation_id) ->
  List.find (fun o => String.eqb (op_id o) operation_id) l = None.
Proof.
  induction l as [|x l IH]; intros H; simpl; [reflexivity|].
  destruct (String.eqb_spec (op_id x) operation_id) as [E|E].
  - exfalso. apply (H x); [now left|exact E].
  - apply IH. intros o Ho. apply H. now right.
Qed.

Lemma list_of_lrem_one key member r :
  list_of key (lrem_one key member r) = remove_first member (list_of key r).
Proof. unfold list_of at 1, lrem_one. cbn [lists]. apply default_store. Qed.

(** X22.  [retry_failed_operation] for an identifier that no member of
    the user's failed list bears returns [False] and changes nothing.
    Otherwise it takes the first member with that identifier off the
    failed list, which gets one shorter.  When the member's [user_id]
    reads as a UUID and Redis takes the score, it returns [True] and puts
    the member into the user's pending set with [retry_count = 0], status
    ["pending"] and the canonical text of the UUID; when not, it returns
    [False], the sorted sets are as before and the member is lost. *)
Theorem retry_failed_operation_moves_back operation_id uid r :
  ((forall o, In o (list_of (failed_key uid) r) -> op_id o <> operation_id) ->
   retry_failed_operation operation_id uid r = (false, r))
  /\ (forall found,
        List.find (fun o => String.eqb (op_id o) operation_id)
          (list_of (failed_key uid) r) = Some found ->
        let r' := snd (retry_failed_operation operation_id uid r) in
        let revived := set_op_status (set_retry_count found 0) "pending" in
        list_of (failed_key uid) r'
        = remove_first found (list_of (failed_key uid) r) /\
        S (length (list_of (failed_key uid) r'))
        = length (list_of (failed_key uid) r) /\
        (forall canonical,
            parse_uuid (user_id found) = Some canonical ->
            double_finite (score revived) = true ->
            fst (retry_failed_operation operation_id uid r) = true /\
            In (set_user_id revived canonical, score revived)
               (zset_of (queue_key uid) r') /\
            retry_count revived = 0%Z /\ op_status revived = "pending" /\
            op_id revived = operation_id) /\
        (parse_uuid (user_id found) = None
         \/ double_finite (score revived) = false ->
         fst (retry_failed_operation operation_id uid r) = false /\
         zsets r' = zsets r)).
Proof.
  unfold retry_failed_operation. rewrite redis_range_whole. split.
  - intros H. now rewrite (find_none_id operation_id _ H).
  - intros found Hf. rewrite Hf. cbv zeta.
    pose proof (find_some _ _ Hf) as [Hin Hid].
    set (revived := set_op_status (set_retry_count found 0) "pending").
    set (r1 := lrem_one (failed_key uid) found r).
    assert (H1 : list_of (failed_key uid) r1
                 = remove_first found (list_of (failed_key uid) r))
      by apply list_of_lrem_one.
    unfold from_dict, zadd_reply.
    change (user_id revived) with (user_id found).
    destruct (parse_uuid (user_id found)) as [c|] eqn:P.
    + change (score (set_user_id revived c)) with (score revived).
      destruct (double_finite (score revived)) eqn:D; cbn [fst snd].
      * change (list_of (failed_key uid)
                  (zadd (queue_key uid) (set_user_id revived c)
                     (score revived) r1))
          with (list_of (failed_key uid) r1).
        split; [exact H1|]. split; [rewrite H1; now apply remove_first_length|].
        split.
        -- intros canonical [= <-] _. split; [reflexivity|].
           split; [rewrite zset_of_zadd; apply zadd_entries_In|].
           split; [reflexivity|]. split; [reflexivity|].
           simpl. now apply String.eqb_eq.
        -- intros [E|E]; discriminate.
      * split; [exact H1|]. split; [rewrite H1; now apply remove_first_length|].
        split; [discriminate|]. intros _. split; reflexivity.
    + cbn [fst snd].
      split; [exact H1|]. split; [rewrite H1; now apply remove_first_length|].
      split; [discriminate|]. intros _. split; reflexivity.
Qed.

Lemma redis_range_head {A : Type} (x : A) (l : list A) stop :
  (0 <= stop)%Z -> hd_error (redis_range (x :: l) 0 stop) = Some x.
Proof.
  intros H. unfold redis_range. cbv zeta.
  replace (if (0 <? 0)%Z then (Z.of_nat (length (x :: l)) + 0)%Z else 0%Z)
    with 0%Z by reflexivity.
  replace (if (0 <? 0)%Z then 0%Z else 0%Z) with 0%Z by reflexivity.
  set (n := Z.of_nat (length (x :: l))).
  assert (Hn : (0 < n)%Z) by (unfold n; simpl; lia).
  destruct (Z.ltb_spec stop 0) as [E1|E1]; [lia|].
  destruct (Z.ltb_spec stop 0) as [E2|E2]; [lia|].
  destruct (Z.leb_spec n 0) as [E3|E3]; [lia|]. simpl orb. cbv iota.
  destruct (Z.leb_spec n stop) as [E4|E4].
  - destruct (Z.to_nat (n - 1 - 0 + 1)) eqn:E; [lia|reflexivity].
  - destruct (Z.to_nat (stop - 0 + 1)) eqn:E; [lia|reflexivity].
Qed.

Lemma dispatch_known geodesic operation :
  In (operation_type operation)
     ["check_in"; "check_out"; "create_session"; "end_session"] ->
  exists handler, dispatch geodesic operation = Some handler.
Proof.
  unfold dispatch. intros [<-|[<-|[<-|[<-|[]]]]]; simpl; eauto.
Qed.

(** X24.  An attempt of a known type that fails with the retries used up
    writes the operation, with status ["failed"] and the raised
    [retry_count], to the front of the user's failed list, where
    [get_failed_operations] lists it first (the operation's [user_id]
    being the canonical text that [from_dict] gave it); the sorted sets
    are not touched. *)
Theorem exhausted_operation_heads_failed_list
    geodesic operation dr db r limit :
  In (operation_type operation)
     ["check_in"; "check_out"; "create_session"; "end_session"] ->
  parse_uuid (user_id operation) = Some (user_id operation) ->
  success (process_operation geodesic operation dr db r) = false ->
  (max_retries operation <= retry_count operation + 1)%Z ->
  (1 <= limit)%Z ->
  let p := process_operation geodesic operation dr db r in
  hd_error (get_failed_operations (user_id operation) limit (redis_after p))
  = Some (operation_after p) /\
  op_status (operation_after p) = "failed" /\
  retry_count (operation_after p) = (retry_count operation + 1)%Z /\
  zsets (redis_after p) = zsets r.
Proof.
  intros Hty Huid Hfail Hmax Hlimit p. subst p.
  destruct (dispatch_known geodesic
              (set_attempt operation "processing" (Some (utcnow dr))) Hty)
    as [handler Hd].
  revert Hfail. unfold process_operation. rewrite Hd.
  destruct (handler _ dr db) as [[|] db1]; [discriminate|].
  cbn [retry_count max_retries set_attempt set_retry_count].
  destruct (Z.leb_spec (max_retries operation) (retry_count operation + 1));
    [|lia].
  intros _. cbn [redis_after operation_after].
  split; [|repeat split].
  unfold get_failed_operations, _move_to_failed.
  cbn [user_id set_op_status set_attempt set_retry_count].
  rewrite list_of_lpush.
  set (after := set_op_status _ "failed").
  pose proof (redis_range_head after
                (list_of (failed_key (user_id operation)) r) (limit - 1)
                ltac:(lia)) as Hhd.
  destruct (redis_range _ 0 (limit - 1)) as [|x l]; [discriminate|].
  injection Hhd as ->. cbn [parse_operations].
  now rewrite (from_dict_canonical after Huid).
Qed.

Lemma exhausted_operation_heads_failed_list_witness :
  hd_error (get_failed_operations alice 50 (redis_after attempt3))
  = Some (operation_after attempt3) /\
  op_status (operation_after attempt3) = "failed".
Proof.
  destruct (exhausted_operation_heads_failed_list flat_geodesic
              (operation_after attempt2) draws4 db_empty
              (redis_after attempt2) 50) as (H1 & H2 & _).
  - left. reflexivity.
  - reflexivity.
  - vm_compute. reflexivity.
  - vm_compute. discriminate.
  - lia.
  - split; assumption.
Defined.

(** ** One user's keys *)

Lemma zset_of_delete_ne key key' r lists' :
  key' <> key ->
  zset_of key' (mkRedis (delete key (zsets r)) lists') = zset_of key' r.
Proof.
  intros H. unfold zset_of. cbn [zsets]. rewrite lookup_delete_ne; auto.
Qed.

Lemma list_of_delete_ne key key' r zsets' :
  key' <> key ->
  list_of key' (mkRedis zsets' (delete key (lists r))) = list_of key' r.
Proof.
  intros H. unfold list_of. cbn [lists]. rewrite lookup_delete_ne; auto.
Qed.

Lemma list_of_lrem_one_ne key key' member r :
  key' <> key -> list_of key' (lrem_one key member r) = list_of key' r.
Proof.
  intros H. unfold list_of, lrem_one. cbn [lists].
  rewrite (lookup_store (A := OfflineOperation)).
  now destruct (decide (key' = key)).
Qed.

(** X23.  [clear_user_queue] returns [True] and leaves the user with an
    empty pending set and an empty failed list, operations of any status
    included; the sets and lists of every other user are as before. *)
Theorem clear_user_queue_empties_both uid r :
  let r' := snd (clear_user_queue uid r) in
  fst (clear_user_queue uid r) = true /\
  zset_of (queue_key uid) r' = [] /\ list_of (failed_key uid) r' = [] /\
  forall other, other <> uid ->
    zset_of (queue_key other) r' = zset_of (queue_key other) r /\
    list_of (failed_key other) r' = list_of (failed_key other) r.
Proof.
  unfold clear_user_queue. cbn [fst snd].
  split; [reflexivity|]. split; [|split].
  - unfold zset_of. cbn [zsets]. now rewrite lookup_delete_eq.
  - unfold list_of. cbn [lists]. now rewrite lookup_delete_eq.
  - intros other Hne. split.
    + apply zset_of_delete_ne. intros E. now apply queue_key_inj in E.
    + apply list_of_delete_ne. intros E. now apply failed_key_inj in E.
Qed.

Lemma process_operation_other_user geodesic operation dr db r other :
  other <> user_id operation ->
  zset_of (queue_key other)
    (redis_after (process_operation geodesic operation dr db r))
  = zset_of (queue_key other) r /\
  list_of (failed_key other)
    (redis_after (process_operation geodesic operation dr db r))
  = list_of (failed_key other) r.
Proof.
  intros Hne.
  assert (Hq : queue_key other <> queue_key (user_id operation))
    by (intros E; now apply queue_key_inj in E).
  assert (Hf : failed_key other <> failed_key (user_id operation))
    by (intros E; now apply failed_key_inj in E).
  unfold process_operation.
  destruct (dispatch _ _) as [handler|]; [|split; reflexivity].
  destruct (handler _ dr db) as [[|] db1]; cbn [redis_after].
  - unfold _remove_operation, zremrangebyscore_all.
    cbn [user_id set_op_status set_attempt].
    split; [now apply zset_of_delete_ne|reflexivity].
  - cbn [retry_count max_retries set_attempt set_retry_count].
    destruct (_ <=? _)%Z; cbn [redis_after].
    + unfold _move_to_failed.
      cbn [user_id set_op_status set_attempt set_retry_count].
      split; [reflexivity|now apply list_of_lpush_ne].
    + match goal with
      | |- context [_update_operation ?o r] =>
          destruct (_update_operation_cases o r) as [-> | ->];
            [|split; reflexivity]
      end.
      cbn [user_id set_op_status set_attempt set_retry_count].
      split; [now apply zset_of_zadd_ne|reflexivity].
Qed.

(** X26.  The calls of the offline service for one user leave the
    pending set and the failed list of every other user as they are:
    [queue_operation], [process_operation] (for the operation's owner)
    and [retry_failed_operation]. *)
Theorem other_users_untouched geodesic uid other kind payload prio dr
    operation db operation_id r :
  other <> uid -> user_id operation = uid ->
  let untouched r' :=
    zset_of (queue_key other) r' = zset_of (queue_key other) r /\
    list_of (failed_key other) r' = list_of (failed_key other) r in
  untouched (snd (queue_operation kind payload uid prio dr r)) /\
  untouched (redis_after (process_operation geodesic operation dr db r)) /\
  untouched (snd (retry_failed_operation operation_id uid r)).
Proof.
  intros Hne Hu untouched. subst untouched. cbv beta.
  assert (Hq : queue_key other <> queue_key uid)
    by (intros E; now apply queue_key_inj in E).
  assert (Hf : failed_key other <> failed_key uid)
    by (intros E; now apply failed_key_inj in E).
  split; [|split].
  - unfold queue_operation.
    match goal with
    | |- context [zadd_reply ?k ?m ?s r] =>
        destruct (zadd_reply_cases k m s r) as [->|[e ->]]
    end; cbn [snd]; [|split; reflexivity].
    split; [now apply zset_of_zadd_ne|reflexivity].
  - apply process_operation_other_user. now rewrite Hu.
  - unfold retry_failed_operation.
    destruct (List.find _ _) as [found|]; cbn [snd]; [|split; reflexivity].
    assert (H1 : zset_of (queue_key other) (lrem_one (failed_key uid) found r)
                 = zset_of (queue_key other) r) by reflexivity.
    assert (H2 : list_of (failed_key other) (lrem_one (failed_key uid) found r)
                 = list_of (failed_key other) r)
      by now apply list_of_lrem_one_ne.
    destruct (from_dict _) as [o|]; cbn [snd]; [|now split].
    destruct (zadd_reply_cases (queue_key uid) o (score o)
                (lrem_one (failed_key uid) found r)) as [->|[e ->]];
      cbn [snd]; [|now split].
    split.
    + rewrite zset_of_zadd_ne by exact Hq. exact H1.
    + exact H2.
Qed.

Lemma other_users_untouched_witness :
  zset_of (queue_key bob)
    (redis_after (process_operation flat_geodesic queued_start draws5 db_empty
                    redis_two_users))
  = zset_of (queue_key bob) redis_two_users.
Proof.
  apply (other_users_untouched flat_geodesic alice bob "check_in"
           check_in_payload 1 draws5 queued_start db_empty (op_id queued_start)
           redis_two_users).
  - discriminate.
  - reflexivity.
Defined.

(** ** The canonical text of a UUID *)

Lemma canonical_digit_facts c :
  canonical_digit c = true ->
  hex_digit c = Some c /\
  Ascii.eqb c "u" = false /\ Ascii.eqb c "-" = false /\
  Ascii.eqb c "_" = false /\ Ascii.eqb c "+" = false /\
  Ascii.eqb c "x" = false /\ Ascii.eqb c "X" = false /\
  is_brace c = false /\ is_c_space c = false.
Proof.
  destruct c as [[] [] [] [] [] [] [] []]; vm_compute; intros H;
    try discriminate H; repeat split.
Qed.

Lemma hex_digit_canonical c d :
  hex_digit c = Some d -> canonical_digit d = true.
Proof.
  destruct c as [[] [] [] [] [] [] [] []]; intros H; vm_compute in H;
    try discriminate H; injection H as <-; reflexivity.
Qed.

Lemma all_chars_app p s1 s2 :
  all_chars p (s1 ++ s2) = all_chars p s1 && all_chars p s2.
Proof.
  induction s1 as [|c s1 IH]; simpl; [reflexivity|].
  now rewrite IH, andb_assoc.
Qed.

Lemma all_chars_of_list p l :
  Forall (fun c => p c = true) l ->
  all_chars p (String.string_of_list_ascii l) = true.
Proof. induction 1 as [|c l Hc _ IH]; simpl; [reflexivity|]. now rewrite Hc. Qed.

Lemma all_chars_uuid_str p ds :
  Forall (fun c => p c = true) ds -> p "-"%char = true ->
  all_chars p (uuid_str ds) = true.
Proof.
  intros H Hh. unfold uuid_str, take_string.
  repeat (rewrite all_chars_app; apply andb_true_iff; split);
    try (apply all_chars_of_list);
    try (simpl; now rewrite Hh);
    auto using Forall_take, Forall_drop.
Qed.

Lemma prefix_other_head c p a s :
  Ascii.eqb a c = false -> String.prefix (String c p) (String a s) = false.
Proof.
  intros H. simpl. destruct (ascii_dec c a) as [->|]; [|reflexivity].
  now rewrite Ascii.eqb_refl in H.
Qed.

Lemma remove_all_absent c p s :
  all_chars (fun a => negb (Ascii.eqb a c)) s = true ->
  remove_all (String c p) 0 s = s.
Proof.
  induction s as [|a s IH]; [reflexivity|].
  cbn [all_chars]. intros H. apply andb_true_iff in H as [Ha Hs].
  apply negb_true_iff in Ha. cbn [remove_all].
  rewrite (prefix_other_head c p a s Ha). now rewrite IH.
Qed.

Lemma remove_char_app c s1 s2 :
  remove_all (String c EmptyString) 0 (s1 ++ s2)
  = remove_all (String c EmptyString) 0 s1
    ++ remove_all (String c EmptyString) 0 s2.
Proof.
  induction s1 as [|a s1 IH]; [reflexivity|].
  change (String a s1 ++ s2) with (String a (s1 ++ s2)).
  cbn [remove_all String.prefix String.length Nat.sub].
  assert (E : forall s, String.prefix EmptyString s = true)
    by (now intros []).
  destruct (ascii_dec c a); [now rewrite !E|]. simpl. now rewrite IH.
Qed.

Lemma lstrip_of_kept p s :
  all_chars (fun a => negb (p a)) s = true -> lstrip_of p s = s.
Proof.
  destruct s as [|a s]; [reflexivity|]. simpl. intros H.
  apply andb_true_iff in H as [Ha _]. apply negb_true_iff in Ha.
  now rewrite Ha.
Qed.

Lemma rstrip_of_kept p s :
  all_chars (fun a => negb (p a)) s = true -> rstrip_of p s = s.
Proof.
  induction s as [|a s IH]; [reflexivity|]. simpl. intros H.
  apply andb_true_iff in H as [Ha Hs]. apply negb_true_iff in Ha.
  rewrite (IH Hs), Ha. now destruct s.
Qed.

Lemma uuid_digits_joined (ds : list ascii) :
  (firstn 8 ds ++ firstn 4 (skipn 8 ds) ++ firstn 4 (skipn 12 ds)
   ++ firstn 4 (skipn 16 ds) ++ skipn 20 ds)%list = ds.
Proof.
  replace (skipn 20 ds) with (skipn 4 (skipn 16 ds))
    by (now rewrite drop_drop).
  rewrite (take_drop 4 (skipn 16 ds)).
  replace (skipn 16 ds) with (skipn 4 (skipn 12 ds))
    by (now rewrite drop_drop).
  rewrite (take_drop 4 (skipn 12 ds)).
  replace (skipn 12 ds) with (skipn 4 (skipn 8 ds))
    by (now rewrite drop_drop).
  rewrite (take_drop 4 (skipn 8 ds)).
  apply take_drop.
Qed.

Lemma string_of_list_app (l1 l2 : list ascii) :
  String.string_of_list_ascii (l1 ++ l2)%list
  = String.string_of_list_ascii l1 ++ String.string_of_list_ascii l2.
Proof. induction l1 as [|c l1 IH]; simpl; [reflexivity|]. now rewrite IH. Qed.

Lemma uuid_str_without_hyphens ds :
  Forall (fun c => canonical_digit c = true) ds ->
  remove_all "-" 0 (uuid_str ds) = String.string_of_list_ascii ds.
Proof.
  intros H.
  assert (Hpart : forall l, Forall (fun c => canonical_digit c = true) l ->
            remove_all "-" 0 (String.string_of_list_ascii l)
            = String.string_of_list_ascii l).
  { intros l Hl. apply remove_all_absent, all_chars_of_list.
    eapply Forall_impl; [exact Hl|]. intros c Hc. cbv beta.
    destruct (canonical_digit_facts c Hc) as (_ & _ & -> & _). reflexivity. }
  unfold uuid_str, take_string.
  rewrite !remove_char_app.
  rewrite !Hpart by auto using Forall_take, Forall_drop.
  change (remove_all "-" 0 "-") with EmptyString.
  assert (E : forall s : string, EmptyString ++ s = s) by reflexivity.
  rewrite !E, <- !string_of_list_app.
  now rewrite uuid_digits_joined.
Qed.

Lemma scan_digits_canonical ds :
  Forall (fun c => canonical_digit c = true) ds ->
  scan_digits false (String.string_of_list_ascii ds) = Some (ds, EmptyString).
Proof.
  induction 1 as [|c l Hc _ IH]; [reflexivity|].
  destruct (canonical_digit_facts c Hc) as (Hd & _ & _ & Hu & _).
  simpl. now rewrite Hu, Hd, IH.
Qed.

Lemma int16_digits_canonical ds :
  Forall (fun c => canonical_digit c = true) ds -> (2 <= length ds)%nat ->
  int16_digits (String.string_of_list_ascii ds) = Some ds.
Proof.
  intros H Hlen.
  destruct ds as [|a [|b l]]; simpl in Hlen; try lia.
  pose proof (scan_digits_canonical _ H) as Hscan.
  inversion H as [|? ? Ha H']; subst. inversion H' as [|? ? Hb _]; subst.
  destruct (canonical_digit_facts a Ha)
    as (_ & _ & _ & Hau & Hap & _ & _ & _ & Has).
  destruct (canonical_digit_facts b Hb) as (_ & _ & _ & _ & _ & Hbx & HbX & _).
  unfold int16_digits.
  change (String.string_of_list_ascii (a :: b :: l))
    with (String a (String b (String.string_of_list_ascii l))) in *.
  cbn [lstrip_of]. rewrite Has, Hap, Hbx, HbX. cbn [orb]. rewrite andb_false_r.
  rewrite Hau, Hscan. reflexivity.
Qed.

Lemma string_of_list_length l :
  String.length (String.string_of_list_ascii l) = length l.
Proof. induction l as [|c l IH]; simpl; auto. Qed.

(** The canonical text of a UUID reads as itself. *)
Lemma parse_uuid_canonical ds :
  Forall (fun c => canonical_digit c = true) ds -> length ds = 32%nat ->
  parse_uuid (uuid_str ds) = Some (uuid_str ds).
Proof.
  intros H Hlen. unfold parse_uuid.
  assert (Hno : forall c, canonical_digit c = false -> Ascii.eqb "-" c = false ->
                  all_chars (fun a => negb (Ascii.eqb a c)) (uuid_str ds) = true).
  { intros c Hc Hh. apply all_chars_uuid_str.
    - eapply Forall_impl; [exact H|]. intros a Ha. cbv beta.
      apply negb_true_iff. destruct (Ascii.eqb_spec a c); [congruence|reflexivity].
    - now rewrite Hh. }
  rewrite (remove_all_absent "u" "rn:") by (now apply Hno).
  rewrite (remove_all_absent "u" "uid:") by (now apply Hno).
  assert (Hb : all_chars (fun a => negb (is_brace a)) (uuid_str ds) = true).
  { apply all_chars_uuid_str; [|reflexivity].
    eapply Forall_impl; [exact H|]. intros a Ha. cbv beta.
    destruct (canonical_digit_facts a Ha) as (_ & _ & _ & _ & _ & _ & _ & -> & _).
    reflexivity. }
  unfold strip_of. rewrite (lstrip_of_kept _ _ Hb), (rstrip_of_kept _ _ Hb).
  rewrite (uuid_str_without_hyphens ds H), string_of_list_length, Hlen.
  cbn [Nat.eqb].
  rewrite (int16_digits_canonical ds H) by lia.
  now rewrite Hlen.
Qed.

Lemma lstrip_length p s :
  (String.length (lstrip_of p s) <= String.length s)%nat.
Proof.
  induction s as [|c s IH]; simpl; [lia|].
  destruct (p c); simpl; lia.
Qed.

Lemma scan_digits_sound s :
  forall prev ds tail,
    scan_digits prev s = Some (ds, tail) ->
    Forall (fun c => canonical_digit c = true) ds /\
    (length ds + String.length tail <= String.length s)%nat.
Proof.
  induction s as [|c s IH]; intros prev ds tail; simpl.
  - destruct prev; [discriminate|]. intros [= <- <-]. split; [constructor|simpl; lia].
  - destruct (Ascii.eqb c "_").
    + destruct prev; [discriminate|]. intros Hs.
      destruct (IH _ _ _ Hs) as [H1 H2]. split; [exact H1|lia].
    + destruct (hex_digit c) as [d|] eqn:Hd.
      * destruct (scan_digits false s) as [[ds' tail']|] eqn:Hs; [|discriminate].
        intros [= <- <-]. destruct (IH _ _ _ Hs) as [H1 H2]. split.
        -- constructor; [now apply (hex_digit_canonical c)|exact H1].
        -- simpl. lia.
      * destruct prev; [discriminate|]. intros [= <- <-].
        split; [constructor|simpl; lia].
Qed.

Lemma int16_digits_sound s ds :
  int16_digits s = Some ds ->
  Forall (fun c => canonical_digit c = true) ds /\
  (length ds <= String.length s)%nat.
Proof.
  unfold int16_digits. pose proof (lstrip_length is_c_space s) as H0.
  set (s0 := lstrip_of is_c_space s) in *.
  set (s1 := match s0 with
             | String c rest => if Ascii.eqb c "+" then rest else s0
             | EmptyString => s0
             end).
  assert (H1 : (String.length s1 <= String.length s0)%nat).
  { subst s1. destruct s0 as [|c rest]; [lia|].
    destruct (Ascii.eqb c "+"); simpl; lia. }
  set (s2 := match s1 with
             | String c (String x rest) =>
                 if Ascii.eqb c "0" && (Ascii.eqb x "x" || Ascii.eqb x "X")
                 then match rest with
                      | String u rest' => if Ascii.eqb u "_" then rest' else rest
                      | EmptyString => rest
                      end
                 else s1
             | _ => s1
             end).
  assert (H2 : (String.length s2 <= String.length s1)%nat).
  { subst s2. destruct s1 as [|c [|x rest]]; try lia.
    destruct (_ && _); [|lia].
    destruct rest as [|u rest']; simpl; [lia|].
    destruct (Ascii.eqb u "_"); simpl; lia. }
  destruct s2 as [|c rest]; [discriminate|].
  destruct (Ascii.eqb c "_"); [discriminate|].
  destruct (scan_digits false (String c rest)) as [[[|d ds'] tail]|] eqn:Hs;
    try discriminate.
  destruct (lstrip_of is_c_space tail); [|discriminate].
  intros [= <-]. destruct (scan_digits_sound _ _ _ _ Hs) as [Hc Hl].
  split; [exact Hc|]. lia.
Qed.

(** What [UUID] gives is a canonical text, and reads as itself. *)
Lemma parse_uuid_idempotent text canonical :
  parse_uuid text = Some canonical -> parse_uuid canonical = Some canonical.
Proof.
  unfold parse_uuid at 1. cbv zeta.
  destruct (String.length _ =? 32)%nat eqn:Hlen; [|discriminate].
  apply Nat.eqb_eq in Hlen.
  destruct (int16_digits _) as [ds|] eqn:Hd; [|discriminate].
  intros [= <-]. destruct (int16_digits_sound _ _ Hd) as [Hc Hl].
  rewrite Hlen in Hl. apply parse_uuid_canonical.
  - apply Forall_app. split; [|exact Hc].
    apply List.Forall_forall. intros c Hin. apply repeat_spec in Hin.
    now subst c.
  - rewrite length_app, repeat_length. lia.
Qed.

(** ** What the queue keeps *)

Lemma zadd_entries_Forall (P : OfflineOperation * Z -> Prop) member s l :
  P (member, s) -> Forall P l -> Forall P (zadd_entries member s l).
Proof.
  intros Hm. induction 1 as [|[m s0] l Hx Hl IH]; simpl.
  - now repeat constructor.
  - destruct (decide (m = member)) as [->|]; constructor; auto.
Qed.

Lemma remove_first_Forall (P : OfflineOperation -> Prop) member l :
  Forall P l -> Forall P (remove_first member l).
Proof.
  induction 1 as [|x l Hx Hl IH]; simpl; [constructor|].
  destruct (decide (x = member)); [exact Hl|now constructor].
Qed.

Lemma zset_of_Forall key r :
  queue_consistent r -> Forall (pending_member_ok key) (zset_of key r).
Proof.
  intros [H _]. unfold zset_of. destruct (zsets r !! key) eqn:E; simpl.
  - now apply H.
  - constructor.
Qed.

Lemma list_of_Forall key r :
  queue_consistent r -> Forall (failed_member_ok key) (list_of key r).
Proof.
  intros [_ H]. unfold list_of. destruct (lists r !! key) eqn:E; simpl.
  - now apply H.
  - constructor.
Qed.

Lemma zadd_consistent key member s r :
  pending_member_ok key (member, s) -> queue_consistent r ->
  queue_consistent (zadd key member s r).
Proof.
  intros Hm Hr. split; [|apply Hr].
  intros k zs. unfold zadd. cbn [zsets].
  rewrite (lookup_store (A := OfflineOperation * Z)).
  destruct (decide (k = key)) as [->|]; [|apply Hr].
  pose proof (zadd_entries_Forall _ member s _ Hm (zset_of_Forall key r Hr)) as H.
  destruct (zadd_entries member s (zset_of key r)); [discriminate|].
  now intros [= <-].
Qed.

Lemma lpush_consistent key member r :
  failed_member_ok key member -> queue_consistent r ->
  queue_consistent (lpush key member r).
Proof.
  intros Hm Hr. split; [apply Hr|].
  intros k l. unfold lpush. cbn [lists].
  rewrite (lookup_store (A := OfflineOperation)).
  destruct (decide (k = key)) as [->|]; [|apply Hr].
  intros [= <-]. constructor; [exact Hm|now apply list_of_Forall].
Qed.

Lemma lrem_one_consistent key member r :
  queue_consistent r -> queue_consistent (lrem_one key member r).
Proof.
  intros Hr. split; [apply Hr|].
  intros k l. unfold lrem_one. cbn [lists].
  rewrite (lookup_store (A := OfflineOperation)).
  destruct (decide (k = key)) as [->|]; [|apply Hr].
  pose proof (remove_first_Forall _ member _ (list_of_Forall key r Hr)) as H.
  destruct (remove_first member (list_of key r)); [discriminate|].
  now intros [= <-].
Qed.

Lemma delete_consistent kz kl r :
  queue_consistent r ->
  queue_consistent (mkRedis (delete kz (zsets r)) (delete kl (lists r))).
Proof.
  intros [Hz Hl]. split; cbn [zsets lists]; intros k x H.
  - apply lookup_delete_Some in H as [_ H]. now apply Hz.
  - apply lookup_delete_Some in H as [_ H]. now apply Hl.
Qed.

Lemma zrem_consistent key r :
  queue_consistent r -> queue_consistent (zremrangebyscore_all key r).
Proof.
  intros [Hz Hl]. split; cbn [zsets lists zremrangebyscore_all]; [|exact Hl].
  intros k x H. apply lookup_delete_Some in H as [_ H]. now apply Hz.
Qed.

Lemma lpush_canonical key member r :
  parse_uuid (user_id member) = Some (user_id member) ->
  failed_canonical r -> failed_canonical (lpush key member r).
Proof.
  intros Hm Hr k l. unfold lpush. cbn [lists].
  rewrite (lookup_store (A := OfflineOperation)).
  destruct (decide (k = key)) as [->|]; [|apply Hr].
  intros [= <-]. constructor; [exact Hm|].
  unfold list_of. destruct (lists r !! key) eqn:E; [now apply (Hr key)|constructor].
Qed.

Lemma lrem_one_canonical key member r :
  failed_canonical r -> failed_canonical (lrem_one key member r).
Proof.
  intros Hr k l. unfold lrem_one. cbn [lists].
  rewrite (lookup_store (A := OfflineOperation)).
  destruct (decide (k = key)) as [->|]; [|apply Hr].
  assert (H : Forall (fun m => parse_uuid (user_id m) = Some (user_id m))
                (remove_first member (list_of key r))).
  { apply remove_first_Forall. unfold list_of.
    destruct (lists r !! key) eqn:E; [now apply (Hr key)|constructor]. }
  destruct (remove_first member (list_of key r)); [discriminate|].
  now intros [= <-].
Qed.

Lemma _update_operation_consistent operation r :
  pending_member_ok (queue_key (user_id operation))
    (operation, score operation) ->
  queue_consistent r -> queue_consistent (_update_operation operation r).
Proof.
  intros Hm Hr.
  destruct (_update_operation_cases operation r) as [-> | ->];
    [now apply zadd_consistent|exact Hr].
Qed.

Lemma _update_operation_lists operation r :
  lists (_update_operation operation r) = lists r.
Proof. destruct (_update_operation_cases operation r) as [-> | ->]; reflexivity. Qed.

(** An operation object as [get_pending_operations] hands it out. *)
Lemma process_operation_consistent geodesic operation dr db r :
  max_retries operation = 3%Z -> (0 <= retry_count operation < 3)%Z ->
  parse_uuid (user_id operation) = Some (user_id operation) ->
  queue_consistent r /\ failed_canonical r ->
  queue_consistent (redis_after (process_operation geodesic operation dr db r))
  /\ failed_canonical
       (redis_after (process_operation geodesic operation dr db r)).
Proof.
  intros Hmax Hrc Huid [Hr Hc]. unfold process_operation.
  destruct (dispatch _ _) as [handler|]; [|now split].
  destruct (handler _ dr db) as [[|] db1]; cbn [redis_after].
  - split; [now apply zrem_consistent|exact Hc].
  - cbn [retry_count max_retries set_attempt set_retry_count].
    destruct (Z.leb_spec (max_retries operation) (retry_count operation + 1));
      cbn [redis_after].
    + split.
      * apply lpush_consistent; [|exact Hr]. repeat split; simpl; lia.
      * apply lpush_canonical; [exact Huid|exact Hc].
    + split.
      * apply _update_operation_consistent; [|exact Hr].
        repeat split; simpl; lia.
      * unfold failed_canonical. rewrite _update_operation_lists. exact Hc.
Qed.

Lemma process_all_consistent geodesic operations n draws acc :
  Forall (fun o => max_retries o = 3%Z /\ (0 <= retry_count o < 3)%Z /\
                   parse_uuid (user_id o) = Some (user_id o)) operations ->
  queue_consistent (run_redis acc) /\ failed_canonical (run_redis acc) ->
  queue_consistent (run_redis (process_all geodesic operations n draws acc))
  /\ failed_canonical
       (run_redis (process_all geodesic operations n draws acc)).
Proof.
  intros Hops. revert n acc.
  induction Hops as [|o rest (Hmax & Hrc & Huid) _ IH]; intros n acc Hacc;
    simpl; [exact Hacc|].
  apply IH.
  pose proof (process_operation_consistent geodesic o (draws n) (run_db acc)
                (run_redis acc) Hmax Hrc Huid Hacc) as H.
  destruct (success _); exact H.
Qed.

Lemma pending_operations_ok json_ltb uid limit r :
  queue_consistent r ->
  Forall (fun o => max_retries o = 3%Z /\ (0 <= retry_count o < 3)%Z /\
                   parse_uuid (user_id o) = Some (user_id o))
         (get_pending_operations json_ltb uid limit r).
Proof.
  intros Hr. apply List.Forall_forall. intros o Ho.
  unfold get_pending_operations, zrevrange in Ho.
  apply parse_operations_In in Ho as (member & Hin & Hd).
  apply in_map_iff in Hin as [[m s] [<- Hin]].
  apply redis_range_In in Hin.
  apply (Permutation_in _ (zrev_sort_perm json_ltb _)) in Hin.
  pose proof (zset_of_Forall (queue_key uid) r Hr) as H.
  rewrite List.Forall_forall in H. destruct (H _ Hin) as (_ & H1 & H2 & _).
  unfold from_dict in Hd. cbn [fst] in *.
  destruct (parse_uuid (user_id m)) as [c|] eqn:P; [|discriminate].
  injection Hd as <-. cbn [max_retries retry_count user_id set_user_id].
  split; [exact H1|]. split; [exact H2|].
  exact (parse_uuid_idempotent _ _ P).
Qed.

Lemma queue_step_consistent geodesic json_ltb r r' :
  queue_step geodesic json_ltb r r' ->
  queue_consistent r /\ failed_canonical r ->
  queue_consistent r' /\ failed_canonical r'.
Proof.
  intros [kind payload uid prio dr r0|uid max_operations draws db r0
          |operation_id uid r0|uid r0] [Hr Hc].
  - unfold queue_operation.
    match goal with
    | |- context [zadd_reply ?k ?m ?s r0] =>
        destruct (zadd_reply_cases k m s r0) as [->|[e ->]]
    end; cbn [snd]; [|now split].
    split; [|exact Hc].
    apply zadd_consistent; [|exact Hr]. repeat split; simpl; lia.
  - unfold process_user_queue. apply process_all_consistent; [|now split].
    now apply pending_operations_ok.
  - unfold retry_failed_operation.
    destruct (List.find _ _) as [found|] eqn:Hf; cbn [snd]; [|now split].
    apply find_some in Hf as [Hin _]. apply redis_range_In in Hin.
    pose proof (list_of_Forall (failed_key uid) _ Hr) as H.
    rewrite List.Forall_forall in H.
    destruct (H _ Hin) as (_ & Hmax & _ & Hkey).
    apply failed_key_inj in Hkey.
    assert (Hcan : parse_uuid (user_id found) = Some (user_id found)).
    { unfold list_of in Hin. destruct (lists r0 !! failed_key uid) eqn:E;
        [|contradiction].
      pose proof (Hc _ _ E) as HF. rewrite List.Forall_forall in HF.
      now apply HF. }
    pose proof (lrem_one_consistent (failed_key uid) found r0 Hr) as Hr1.
    pose proof (lrem_one_canonical (failed_key uid) found r0 Hc) as Hc1.
    unfold from_dict. cbn [user_id set_op_status set_attempt set_retry_count].
    rewrite Hcan.
    match goal with
    | |- context [zadd_reply ?k ?m ?s ?r1] =>
        destruct (zadd_reply_cases k m s r1) as [->|[e ->]]
    end; cbn [snd]; [|now split].
    split; [|exact Hc1].
    apply zadd_consistent; [|exact Hr1].
    repeat split; simpl; try lia. now rewrite <- Hkey.
  - unfold clear_user_queue. cbn [snd]. split.
    + now apply delete_consistent.
    + intros k l H. cbn [lists] in H.
      apply lookup_delete_Some in H as [_ H]. now apply (Hc k).
Qed.

(** X20.  Whatever sequence of [queue_operation], [process_user_queue],
    [retry_failed_operation] and [clear_user_queue] has run: every member
    of a pending set has status ["pending"], [max_retries = 3], a
    [retry_count] from 0 to 2, its own score, and sits under its owner's
    key; every member of a failed list has status ["failed"] and
    [retry_count = max_retries = 3].  So no stored [retry_count] exceeds
    [max_retries], and no stored status is ["processing"] or
    ["completed"]. *)
Theorem queue_members_well_formed geodesic json_ltb r :
  queue_reachable geodesic json_ltb r ->
  (forall key zs, zsets r !! key = Some zs ->
                  Forall (pending_member_ok key) zs) /\
  (forall key l, lists r !! key = Some l ->
                 Forall (failed_member_ok key) l).
Proof.
  intros Hreach.
  assert (H : queue_consistent r /\ failed_canonical r).
  { induction Hreach as [|r r' _ IH Hstep].
    - split; [split|]; intros k x H; cbn [zsets lists] in H;
        rewrite lookup_empty in H; discriminate.
    - exact (queue_step_consistent geodesic json_ltb r r' Hstep IH). }
  exact (proj1 H).
Qed.

Lemma redis_lost_run_reachable :
  queue_reachable flat_geodesic id_ltb
    (run_redis (process_user_queue flat_geodesic id_ltb alice 10
                  (fun _ => draws2) db_empty redis_lost)).
Proof.
  apply queue_reachable_step with (r := redis_lost).
  - apply queue_reachable_step with (r := redis_empty).
    + apply queue_reachable_empty.
    + apply qstep_queue_operation.
  - apply qstep_process_user_queue.
Qed.

Lemma queue_members_well_formed_witness :
  queue_consistent
    (run_redis (process_user_queue flat_geodesic id_ltb alice 10
                  (fun _ => draws2) db_empty redis_lost)).
Proof.
  apply (queue_members_well_formed flat_geodesic id_ltb).
  exact redis_lost_run_reachable.
Defined.

(** ** The database under the offline service *)

Lemma process_operation_reachable geodesic operation dr db r :
  reachable geodesic db ->
  reachable geodesic (db_after (process_operation geodesic operation dr db r)).
Proof.
  intros Hdb. unfold process_operation.
  set (o := set_attempt operation "processing" (Some (utcnow dr))).
  assert (Hh : forall handler, dispatch geodesic o = Some handler ->
                 reachable geodesic (snd (handler o dr db))).
  { intros handler. unfold dispatch.
    repeat (destruct (String.eqb _ _)); intros [= <-].
    - unfold _process_check_in.
      destruct (location_of _) as [location_data|]; [|exact Hdb].
      destruct (_ ≫= parse_uuid) as [sid|]; [|exact Hdb].
      destruct (check_in _ _ _ _ _ _) as [event db1] eqn:E. simpl.
      replace db1
        with (snd (check_in geodesic sid location_data (data_notes (data o))
                     dr db)) by now rewrite E.
      eapply reachable_step; [exact Hdb|apply step_check_in].
    - unfold _process_check_out.
      destruct (location_of _) as [location_data|]; [|exact Hdb].
      destruct (_ ≫= parse_uuid) as [sid|]; [|exact Hdb].
      destruct (check_out _ _ _ _ _ _) as [event db1] eqn:E. simpl.
      replace db1
        with (snd (check_out geodesic sid location_data (data_notes (data o))
                     dr db)) by now rewrite E.
      eapply reachable_step; [exact Hdb|apply step_check_out].
    - unfold _process_create_session.
      destruct (data_contact_id _ ≫= parse_uuid) as [cid|]; [|exact Hdb].
      destruct (data_meeting_id _ ≫= parse_uuid) as [mid|]; [|exact Hdb].
      destruct (create_session _ _ _ _ _) as [[s|e] db1] eqn:E; simpl;
        (replace db1
           with (snd (create_session cid mid (data_notes (data o)) dr db))
           by now rewrite E);
        (eapply reachable_step; [exact Hdb|apply step_create_session]).
    - unfold _process_end_session.
      destruct (_ ≫= parse_uuid) as [sid|]; [|exact Hdb].
      eapply reachable_step; [exact Hdb|apply step_end_session]. }
  destruct (dispatch geodesic o) as [handler|]; [|exact Hdb].
  specialize (Hh handler eq_refl).
  destruct (handler o dr db) as [ok db1]. simpl in Hh.
  destruct ok; [exact Hh|].
  destruct (_ <=? _)%Z; exact Hh.
Qed.

Lemma process_all_reachable geodesic operations n draws acc :
  reachable geodesic (run_db acc) ->
  reachable geodesic (run_db (process_all geodesic operations n draws acc)).
Proof.
  revert n acc. induction operations as [|o rest IH]; intros n acc Hacc;
    [exact Hacc|].
  cbn [process_all]. apply IH.
  pose proof (process_operation_reachable geodesic o (draws n) (run_db acc)
                (run_redis acc) Hacc) as H.
  now destruct (success _).
Qed.

(** X25.  Working off a queue changes the database through the calls of
    the session service only, each failed or successful attempt being
    one call at most.  So a database that the session service produced
    is, after [process_user_queue] on any queue, again one that the
    session service can produce, and no participant has two live
    sessions in it. *)
Theorem offline_replay_keeps_one_live_session geodesic json_ltb uid
    max_operations draws db r :
  reachable geodesic db ->
  let db' :=
    run_db (process_user_queue geodesic json_ltb uid max_operations draws
              db r) in
  reachable geodesic db' /\
  forall cid, (length (live_sessions cid db') <= 1)%nat.
Proof.
  intros Hdb db'.
  assert (H : reachable geodesic db').
  { unfold db', process_user_queue. now apply process_all_reachable. }
  split; [exact H|].
  exact (reachable_one_live_session geodesic db' H).
Qed.

Lemma offline_replay_keeps_one_live_session_witness :
  let db' :=
    run_db (process_user_queue flat_geodesic id_ltb alice 10
              (fun _ => draws4) db_started redis_check_in) in
  reachable flat_geodesic db' /\
  forall cid, (length (live_sessions cid db') <= 1)%nat.
Proof.
  apply (offline_replay_keeps_one_live_session flat_geodesic id_ltb alice 10
           (fun _ => draws4) db_started redis_check_in).
  apply reachable_step with (db := db_empty).
  - apply reachable_initial.
  - apply step_create_session.
Defined.
